(** * Comic Vault API: a shallow embedding of the identification backend

    The development follows the four Python modules of the service:

    - [utils/image_processing.py]: [load_image_as_pillow], [resize_image],
      [validate_image_format], [optimize_image_for_api];
    - [utils/vision_analysis.py]: [analyze_comic_cover];
    - [routes/identify.py]: [identify_comic];
    - [main.py]: [health_check].

    Python objects live in a store: Pillow images are heap cells addressed
    by a location, because [Image.thumbnail] updates its receiver in place
    and [resize_image] hands the very same object back.  Exceptions are
    values; every operation runs in a state-and-exception monad in which a
    raised exception keeps the store as it was when the exception left.

    Text ([str]) is represented by its UTF-8 encoding as a Rocq [string];
    binary data ([bytes]) is a [list byte]. *)

From Stdlib Require Import ZArith QArith Qround Qabs Ascii String List.
From Stdlib.Strings Require Import Byte.
From stdpp Require Import base option list strings gmap pretty.

Local Set Warnings "-register-all".
Local Open Scope string_scope.
Local Open Scope list_scope.

(** ** Exceptions and results *)

(** A Python exception: its class name and [str(e)]. *)
Record exn := Exn { exn_class : string; exn_str : string }.

Definition result (A : Type) : Type := exn + A.

Definition ok {A} (a : A) : result A := inr a.
Definition raise {A} (cls msg : string) : result A := inl (Exn cls msg).

Definition is_ok {A} (r : result A) : bool :=
  match r with inr _ => true | inl _ => false end.

(** ** JSON values, as [json.loads] builds them *)

(** [int] is unbounded; a [float] is kept as the lexeme handed to
    [float(...)] (binary64 values are not modelled), with the three
    constants [NaN], [Infinity], [-Infinity] kept by name. *)
Inductive json :=
| JNull
| JBool (b : bool)
| JInt (n : Z)
| JFloat (lexeme : string)
| JStr (s : string)
| JList (xs : list json)
| JDict (kvs : list (string * json)).

Definition is_dict (v : json) : bool :=
  match v with JDict _ => true | _ => false end.

(** [d[k] = v] on an insertion-ordered dict: an existing key keeps its
    place and takes the new value, a new key goes last. *)
Fixpoint dict_set (k : string) (v : json) (d : list (string * json)) :
  list (string * json) :=
  match d with
  | [] => [(k, v)]
  | (k', v') :: d' =>
      if String.eqb k k' then (k', v) :: d' else (k', v') :: dict_set k v d'
  end.

(** [dict(pairs)] *)
Definition dict_of_pairs (pairs : list (string * json)) : list (string * json) :=
  fold_left (fun d kv => dict_set (fst kv) (snd kv) d) pairs [].

Fixpoint dict_get (k : string) (d : list (string * json)) : option json :=
  match d with
  | [] => None
  | (k', v) :: d' => if String.eqb k k' then Some v else dict_get k d'
  end.

(** ** [json.loads]

    The decoder of CPython's [json] package ([json/decoder.py], and the
    scanner CPython runs, the C one of [_json.c], which the pure-Python
    one of [json/scanner.py] mirrors in all but some messages and
    positions) with its default settings ([strict=True], no hooks).  The scanner
    works on the UTF-8 bytes of the text: every character the grammar
    looks at is ASCII, so the bytes of a longer character are copied
    through unchanged inside string literals.  Character offsets in
    messages count characters, not bytes.

    Two limits of the interpreter are left out: the scanner's recursion
    check ([RecursionError] for containers nested deeper than the
    recursion limit leaves room for) and the cap on the digits [int]
    converts ([ValueError] beyond 4300 digits by default); see
    [within_limits] below. *)
Module Json.

Definition chars := list ascii.

(** A [JSONDecodeError(msg, doc, pos)] before the document is attached;
    [pos] is a byte offset here. *)
Inductive error :=
| DecodeError (msg : string) (pos : nat)
| OutOfFuel.

Definition parse (A : Type) : Type := error + (A * chars * nat).

Definition is_ws (c : ascii) : bool :=
  match c with
  | " "%char | "009"%char | "010"%char | "013"%char => true
  | _ => false
  end.

(** [WHITESPACE.match(s, end).end()] *)
Fixpoint skip_ws (s : chars) (i : nat) : chars * nat :=
  match s with
  | c :: s' => if is_ws c then skip_ws s' (S i) else (s, i)
  | [] => (s, i)
  end.

Definition is_digit (c : ascii) : bool :=
  let n := nat_of_ascii c in (48 <=? n)%nat && (n <=? 57)%nat.

Definition hex_value (c : ascii) : option Z :=
  let n := Z.of_nat (nat_of_ascii c) in
  if (48 <=? n)%Z && (n <=? 57)%Z then Some (n - 48)%Z
  else if (65 <=? n)%Z && (n <=? 70)%Z then Some (n - 55)%Z
  else if (97 <=? n)%Z && (n <=? 102)%Z then Some (n - 87)%Z
  else None.

(** [s[idx:idx+len(p)] == p], returning what follows *)
Fixpoint strip_prefix (p s : chars) : option chars :=
  match p, s with
  | [], _ => Some s
  | a :: p', b :: s' => if Ascii.eqb a b then strip_prefix p' s' else None
  | _ :: _, [] => None
  end.

Definition lit (p : string) : chars := list_ascii_of_string p.

(** [s[idx:idx + 1] == c], returning what follows *)
Definition next_is (c : ascii) (s : chars) : option chars :=
  match s with
  | x :: s' => if Ascii.eqb x c then Some s' else None
  | [] => None
  end.

(** *** Strings *)

Definition byte_of_Z (z : Z) : ascii := ascii_of_nat (Z.to_nat z).

(** [chr(uni)], UTF-8 encoded (a lone surrogate is encoded like any
    other three-byte code point). *)
Definition chr_utf8 (u : Z) : chars :=
  if (u <? 128)%Z then [byte_of_Z u]
  else if (u <? 2048)%Z then
    [byte_of_Z (Z.lor 192 (Z.shiftr u 6));
     byte_of_Z (Z.lor 128 (Z.land u 63))]
  else if (u <? 65536)%Z then
    [byte_of_Z (Z.lor 224 (Z.shiftr u 12));
     byte_of_Z (Z.lor 128 (Z.land (Z.shiftr u 6) 63));
     byte_of_Z (Z.lor 128 (Z.land u 63))]
  else
    [byte_of_Z (Z.lor 240 (Z.shiftr u 18));
     byte_of_Z (Z.lor 128 (Z.land (Z.shiftr u 12) 63));
     byte_of_Z (Z.lor 128 (Z.land (Z.shiftr u 6) 63));
     byte_of_Z (Z.lor 128 (Z.land u 63))].

(** The four hexadecimal digits after [\u], most significant first.
    The scanner asks for one more character after them ([end >= len] is
    an invalid escape), which the closing quote provides in any string
    that ends. *)
Definition decode_uXXXX (s : chars) : option (Z * chars) :=
  match s with
  | a :: b :: c :: d :: ((_ :: _) as s') =>
      match hex_value a, hex_value b, hex_value c, hex_value d with
      | Some x, Some y, Some z, Some w =>
          Some ((((x * 16 + y) * 16 + z) * 16 + w)%Z, s')
      | _, _, _, _ => None
      end
  | _ => None
  end.

(** The [BACKSLASH] table. *)
Definition backslash (esc : ascii) : option ascii :=
  match esc with
  | "034"%char => Some "034"%char
  | "092"%char => Some "092"%char
  | "/"%char => Some "/"%char
  | "b"%char => Some "008"%char
  | "f"%char => Some "012"%char
  | "n"%char => Some "010"%char
  | "r"%char => Some "013"%char
  | "t"%char => Some "009"%char
  | _ => None
  end.

Definition unterminated {A} (begin : nat) : parse A :=
  inl (DecodeError "Unterminated string starting at" begin).

Definition is_high_surrogate (u : Z) : bool := (55296 <=? u)%Z && (u <=? 56319)%Z.
Definition is_low_surrogate (u : Z) : bool := (56320 <=? u)%Z && (u <=? 57343)%Z.

(** What follows [\u] and its four digits [uni], at byte [i]: a high
    surrogate directly followed by an escaped low surrogate is joined
    with it; otherwise [uni] stands alone and nothing more is consumed. *)
Definition join_surrogates (uni : Z) (s : chars) (i : nat) : error + (Z * chars * nat) :=
  if is_high_surrogate uni then
    match strip_prefix (lit "\u") s with
    | Some s' =>
        match decode_uXXXX s' with
        | None => inl (DecodeError "Invalid \uXXXX escape" (S i))
        | Some (uni2, s2) =>
            if is_low_surrogate uni2 then
              inr ((65536 + Z.lor (Z.shiftl (uni - 55296) 10) (uni2 - 56320))%Z,
                   s2, i + 6)
            else inr (uni, s, i)
        end
    | None => inr (uni, s, i)
    end
  else inr (uni, s, i).

(** [scanstring(s, end)]: [s] starts just after the opening quote,
    which sits at byte [begin]; [i] is the offset of the head of [s].  An
    invalid escape is reported at its backslash, a control character
    where it stands. *)
Fixpoint scanstring_loop (fuel begin : nat) (s : chars) (i : nat) : parse chars :=
  match fuel, s with
  | S f, c :: s' =>
      if Ascii.eqb c "034" then inr ([], s', S i)
      else if Ascii.eqb c "092" then
        match s' with
        | [] => unterminated begin
        | esc :: s2 =>
            if Ascii.eqb esc "u" then
              match decode_uXXXX s2 with
              | None => inl (DecodeError "Invalid \uXXXX escape" (S i))
              | Some (uni, s3) =>
                  match join_surrogates uni s3 (i + 6) with
                  | inl e => inl e
                  | inr (uni', s4, i4) =>
                      match scanstring_loop f begin s4 i4 with
                      | inl e => inl e
                      | inr (cs, s5, i5) => inr (chr_utf8 uni' ++ cs, s5, i5)
                      end
                  end
              end
            else
              match backslash esc with
              | None =>
                  inl (DecodeError "Invalid \escape" i)
              | Some ch =>
                  match scanstring_loop f begin s2 (i + 2) with
                  | inl e => inl e
                  | inr (cs, s5, i5) => inr (ch :: cs, s5, i5)
                  end
              end
        end
      else if (nat_of_ascii c <? 32)%nat then
        inl (DecodeError "Invalid control character at" i)
      else
        match scanstring_loop f begin s' (S i) with
        | inl e => inl e
        | inr (cs, s5, i5) => inr (c :: cs, s5, i5)
        end
  | _, _ => unterminated begin
  end.

Definition scanstring (s : chars) (i : nat) : parse chars :=
  scanstring_loop (length s) (i - 1) s i.

(** *** Numbers: [NUMBER_RE] *)

Fixpoint take_digits (s : chars) : chars * chars :=
  match s with
  | c :: s' =>
      if is_digit c then let '(ds, r) := take_digits s' in (c :: ds, r)
      else ([], s)
  | [] => ([], [])
  end.

(** The integer group of [NUMBER_RE]: an optional minus sign, then
    either a single zero or a non-zero digit and any further digits. *)
Definition match_integer (s : chars) : option (chars * chars) :=
  let '(sign, s1) :=
    match next_is "-" s with
    | Some s' => (["-"%char], s')
    | None => ([], s)
    end in
  match s1 with
  | c :: s2 =>
      if Ascii.eqb c "0" then Some (sign ++ [c], s2)
      else if is_digit c then
        let '(ds, r) := take_digits s2 in Some (sign ++ c :: ds, r)
      else None
  | [] => None
  end.

(** The optional fraction group: a dot and at least one digit. *)
Definition match_frac (s : chars) : chars * chars :=
  match next_is "." s with
  | Some s' =>
      match take_digits s' with
      | ([], _) => ([], s)
      | (ds, r) => ("."%char :: ds, r)
      end
  | None => ([], s)
  end.

(** The optional exponent group: [e] or [E], an optional sign and at
    least one digit. *)
Definition match_exp (s : chars) : chars * chars :=
  match s with
  | e :: s' =>
      if Ascii.eqb e "e" || Ascii.eqb e "E" then
        let '(sign, s2) :=
          match s' with
          | c :: s3 =>
              if Ascii.eqb c "-" || Ascii.eqb c "+" then ([c], s3) else ([], s')
          | [] => ([], s')
          end in
        match take_digits s2 with
        | ([], _) => ([], s)
        | (ds, r) => (e :: sign ++ ds, r)
        end
      else ([], s)
  | [] => ([], s)
  end.

(** [int(integer)] on a lexeme of [match_integer] (the interpreter's cap
    on the number of digits it converts is not modelled) *)
Definition digits_value (ds : chars) : Z :=
  fold_left (fun acc c => (acc * 10 + (Z.of_nat (nat_of_ascii c) - 48))%Z) ds 0%Z.

Definition parse_int (lexeme : chars) : Z :=
  match next_is "-" lexeme with
  | Some ds => (- digits_value ds)%Z
  | None => digits_value lexeme
  end.

(** [match_number] and the choice between [parse_int] and [parse_float] *)
Definition scan_number (s : chars) (i : nat) : option (json * chars * nat) :=
  match match_integer s with
  | None => None
  | Some (integer, s1) =>
      let '(frac, s2) := match_frac s1 in
      let '(exp, s3) := match_exp s2 in
      let v :=
        match frac, exp with
        | [], [] => JInt (parse_int integer)
        | _, _ => JFloat (string_of_list_ascii (integer ++ frac ++ exp))
        end in
      Some (v, s3, i + length integer + length frac + length exp)
  end.

(** [string[idx:idx + len(w)] == w], giving the constant [v] *)
Definition scan_word (w : string) (v : json) (s : chars) (i : nat) :
  option (json * chars * nat) :=
  match strip_prefix (lit w) s with
  | Some r => Some (v, r, i + String.length w)
  | None => None
  end.

(** What [_scan_once] tries once the head is none of the quote, the
    brace and the bracket, in its order. *)
Definition scan_atom (s : chars) (i : nat) : parse json :=
  match scan_word "null" JNull s i with Some r => inr r | None =>
  match scan_word "true" (JBool true) s i with Some r => inr r | None =>
  match scan_word "false" (JBool false) s i with Some r => inr r | None =>
  match scan_number s i with Some r => inr r | None =>
  match scan_word "NaN" (JFloat "NaN") s i with Some r => inr r | None =>
  match scan_word "Infinity" (JFloat "Infinity") s i with Some r => inr r | None =>
  match scan_word "-Infinity" (JFloat "-Infinity") s i with Some r => inr r | None =>
  inl (DecodeError "Expecting value" i)
  end end end end end end end.

Definition expecting_name {A} (i : nat) : parse A :=
  inl (DecodeError "Expecting property name enclosed in double quotes" i).

(** [_scan_once], [JSONObject] and [JSONArray].  [scan_once fuel s i]
    scans one value at the head of [s], which sits at byte [i];
    [object_loop] starts just after the opening quote of a key and
    [array_loop] at the first character of an element.  Each call
    spends one unit of [fuel]. *)
Fixpoint scan_once (fuel : nat) (s : chars) (i : nat) : parse json :=
  match fuel with
  | O => inl OutOfFuel
  | S f =>
      match s with
      | [] => inl (DecodeError "Expecting value" i)
      | c :: s' =>
          if Ascii.eqb c "034" then
            match scanstring s' (S i) with
            | inl e => inl e
            | inr (cs, s1, i1) => inr (JStr (string_of_list_ascii cs), s1, i1)
            end
          else if Ascii.eqb c "{" then
            let '(s1, i1) := skip_ws s' (S i) in
            match next_is "}" s1, next_is "034" s1 with
            | Some s2, _ => inr (JDict [], s2, S i1)
            | None, Some s2 =>
                match object_loop f s2 (S i1) with
                | inl e => inl e
                | inr (pairs, s3, i3) => inr (JDict (dict_of_pairs pairs), s3, i3)
                end
            | None, None => expecting_name i1
            end
          else if Ascii.eqb c "[" then
            let '(s1, i1) := skip_ws s' (S i) in
            match next_is "]" s1 with
            | Some s2 => inr (JList [], s2, S i1)
            | None =>
                match array_loop f s1 i1 with
                | inl e => inl e
                | inr (values, s3, i3) => inr (JList values, s3, i3)
                end
            end
          else scan_atom s i
      end
  end
with object_loop (fuel : nat) (s : chars) (i : nat) : parse (list (string * json)) :=
  match fuel with
  | O => inl OutOfFuel
  | S f =>
      match scanstring s i with
      | inl e => inl e
      | inr (key, s1, i1) =>
          let '(s2, i2) := skip_ws s1 i1 in
          match next_is ":" s2 with
          | Some s3 =>
              let '(s4, i4) := skip_ws s3 (S i2) in
              match scan_once f s4 i4 with
              | inl e => inl e
              | inr (value, s5, i5) =>
                  let pair := (string_of_list_ascii key, value) in
                  let '(s6, i6) := skip_ws s5 i5 in
                  match next_is "}" s6, next_is "," s6 with
                  | Some s7, _ => inr ([pair], s7, S i6)
                  | None, Some s7 =>
                      let '(s8, i8) := skip_ws s7 (S i6) in
                      match next_is "034" s8 with
                      | Some s9 =>
                          match object_loop f s9 (S i8) with
                          | inl e => inl e
                          | inr (pairs, sa, ia) => inr (pair :: pairs, sa, ia)
                          end
                      | None => expecting_name i8
                      end
                  | None, None => inl (DecodeError "Expecting ',' delimiter" i6)
                  end
              end
          | None => inl (DecodeError "Expecting ':' delimiter" i2)
          end
      end
  end
with array_loop (fuel : nat) (s : chars) (i : nat) : parse (list json) :=
  match fuel with
  | O => inl OutOfFuel
  | S f =>
      match scan_once f s i with
      | inl e => inl e
      | inr (value, s1, i1) =>
          let '(s2, i2) := skip_ws s1 i1 in
          match next_is "]" s2, next_is "," s2 with
          | Some s3, _ => inr ([value], s3, S i2)
          | None, Some s3 =>
              let '(s4, i4) := skip_ws s3 (S i2) in
              match array_loop f s4 i4 with
              | inl e => inl e
              | inr (values, s5, i5) => inr (value :: values, s5, i5)
              end
          | None, None => inl (DecodeError "Expecting ',' delimiter" i2)
          end
      end
  end.

(** A scan has settled within [n] when it did not stop for lack of fuel
    and what it left unread is no longer than [n]. *)
Definition settled {A} (r : parse A) (n : nat) : Prop :=
  match r with
  | inl OutOfFuel => False
  | inl (DecodeError _ _) => True
  | inr (_, rest, _) => length rest <= n
  end.

(** [JSONDecoder.decode]: one value between optional whitespace, and
    nothing after it. *)
Definition decode (s : chars) : error + json :=
  let '(s0, i0) := skip_ws s 0 in
  match scan_once (2 * length s + 1) s0 i0 with
  | inl e => inl e
  | inr (obj, s1, i1) =>
      let '(s2, i2) := skip_ws s1 i1 in
      match s2 with
      | [] => inr obj
      | _ :: _ => inl (DecodeError "Extra data" i2)
      end
  end.

(** *** [JSONDecodeError.__str__] *)

(** A byte that starts a character (anything but a UTF-8 continuation
    byte). *)
Definition is_char_start (c : ascii) : bool :=
  let n := nat_of_ascii c in (n <? 128)%nat || (192 <=? n)%nat.

Definition count_chars (s : chars) : nat := length (filter is_char_start s).

(** The part of [s] after its last newline. *)
Fixpoint last_line (s : chars) : chars :=
  match s with
  | [] => []
  | c :: s' =>
      if existsb (Ascii.eqb "010") s' then last_line s'
      else if Ascii.eqb c "010" then s' else s
  end.

(** [lineno = doc.count('\n', 0, pos) + 1],
    [colno = pos - doc.rfind('\n', 0, pos)] and the message
    ["%s: line %d column %d (char %d)"]. *)
Definition errmsg (msg : string) (doc : chars) (pos : nat) : string :=
  let before := take pos doc in
  let lineno := S (length (filter (Ascii.eqb "010") before)) in
  let colno := S (count_chars (last_line before)) in
  msg +:+ ": line " +:+ pretty lineno +:+ " column " +:+ pretty colno
      +:+ " (char " +:+ pretty (count_chars before) +:+ ")".

(** The exception [json.loads] raises.  [decode] hands out enough fuel
    for [OutOfFuel] never to come back (see [JsonFacts.decode_settles]
    below), so the second case is there for totality only. *)
Definition to_exn (doc : chars) (e : error) : exn :=
  match e with
  | DecodeError msg pos => Exn "JSONDecodeError" (errmsg msg doc pos)
  | OutOfFuel => Exn "RecursionError" "maximum recursion depth exceeded"
  end.

(** The UTF-8 bytes of U+FEFF. *)
Definition bom : chars := ["239"; "187"; "191"]%char.

End Json.

(** [json.loads(s)] for the two things [message.content] can be: a [str],
    or [None]. *)
Definition json_loads (s : option string) : result json :=
  match s with
  | None =>
      raise "TypeError"
            "the JSON object must be str, bytes or bytearray, not NoneType"
  | Some text =>
      let doc := list_ascii_of_string text in
      if bool_decide (is_Some (Json.strip_prefix Json.bom doc)) then
        inl (Json.to_exn doc
               (Json.DecodeError "Unexpected UTF-8 BOM (decode using utf-8-sig)" 0))
      else
        match Json.decode doc with
        | inl e => inl (Json.to_exn doc e)
        | inr v => ok v
        end
  end.

(** *** The limits of the interpreter

    What [json_loads] leaves out: CPython's scanner counts every open
    container against the recursion limit (1000 frames by default, shared
    with the call stack) and raises [RecursionError] beyond it, and [int]
    refuses more than 4300 digits ([sys.int_info.default_max_str_digits]).
    A text stays clear of both, with room to spare for the call stack,
    when it has at most [nesting_room] opening brackets and braces in all
    (so nothing in it nests deeper) and no run of more than 4300 digits;
    for such a text [json_loads] and the interpreter agree. *)
Definition nesting_room : nat := 100.
Definition max_str_digits : nat := 4300.

Definition opens (c : ascii) : bool := Ascii.eqb c "[" || Ascii.eqb c "{".

(** The longest run of digits in [s], [run] digits having just been
    read. *)
Fixpoint longest_digit_run (run : nat) (s : list ascii) : nat :=
  match s with
  | [] => run
  | c :: s' =>
      if Json.is_digit c then longest_digit_run (S run) s'
      else Nat.max run (longest_digit_run 0 s')
  end.

Definition within_limits (text : string) : bool :=
  let doc := list_ascii_of_string text in
  (length (filter opens doc) <=? nesting_room)%nat
  && (longest_digit_run 0 doc <=? max_str_digits)%nat.

(** ** [Image.thumbnail]: the size it settles on

    Pillow's [Image.thumbnail] (the releases that have
    [Image.Resampling], 9.1 onwards) first decides the target size and
    then resamples.  Its true divisions are taken over the rationals here:
    exact where binary64 is exact, as for every size the service names.
    What binary64 adds is left out: the rounding of each quotient, which
    can turn a near tie between the two candidates of [round_aspect] the
    other way, and the [OverflowError] of a quotient beyond its range (a
    bound of hundreds of digits). *)
Module Thumbnail.

Local Open Scope Z_scope.

(** [max(min(math.floor(number), math.ceil(number), key=key), 1)];
    [min] keeps its first argument on a tie. *)
Definition round_aspect (number : Q) (key : Z -> Q) : Z :=
  let lo := Qfloor number in
  let hi := Qceiling number in
  Z.max (if Qle_bool (key lo) (key hi) then lo else hi) 1.

Definition zero_division {A} (msg : string) : result A :=
  raise "ZeroDivisionError" msg.

(** [preserve_aspect_ratio()]: [None] when the image already fits,
    otherwise the size to resample to. *)
Definition preserve_aspect_ratio (self_size provided_size : Z * Z) :
  result (option (Z * Z)) :=
  let '(x, y) := provided_size in
  let '(width, height) := self_size in
  if (x >=? width) && (y >=? height) then ok None
  else if height =? 0 then zero_division "division by zero"
  else
    let aspect := (inject_Z width / inject_Z height)%Q in
    if y =? 0 then zero_division "division by zero"
    else if Qle_bool aspect (inject_Z x / inject_Z y) then
      ok (Some (round_aspect (inject_Z y * aspect)
                  (fun n => Qabs (aspect - inject_Z n / inject_Z y)%Q), y))
    else if Qeq_bool aspect 0 then zero_division "float division by zero"
    else
      ok (Some (x, round_aspect (inject_Z x / aspect)
                     (fun n => if n =? 0 then 0%Q
                               else Qabs (aspect - inject_Z x / inject_Z n)%Q))).

End Thumbnail.

(** [x in xs] for strings *)
Definition str_in (x : string) (xs : list string) : bool :=
  existsb (String.eqb x) xs.

(** ** The store, the hosted model, and the monad *)

Definition loc := nat.
Definition bytes := list byte.

(** The request [client.chat.completions.create] sends. *)
Inductive content_part :=
| TextPart (text : string)
| ImageUrlPart (url : string).

Record chat_message := { role : string; content : list content_part }.
Record chat_request := { model : string; messages : list chat_message }.

(** What comes back: [response.choices[k].message.content]. *)
Record Choice := { message_content : option string }.
Record ChatCompletion := { choices : list Choice }.

(** The response the endpoint hands to the framework: a [JSONResponse]
    with its status, or a dict, which stands for the 200 the framework
    makes of it.  Either is still to be encoded; see [guarded]. *)
Record response := { status_code : Z; body : json }.

(** A Pillow image object: [pixels] is the type of the decoded raster
    ([Image.im]); [format] is set by [Image.open] only. *)
Record Image (pixels : Type) := {
  mode : string;
  size : Z * Z;
  format : option string;
  im : pixels
}.

Arguments mode {pixels} _.
Arguments size {pixels} _.
Arguments format {pixels} _.
Arguments im {pixels} _.

(** The objects allocated so far and the requests sent so far. *)
Record world (pixels : Type) := {
  heap : list (Image pixels);
  calls : list chat_request
}.

Arguments heap {pixels} _.
Arguments calls {pixels} _.

(** What the libraries contribute: Pillow's codecs and resampler,
    [base64.b64encode(...).decode("utf-8")], and the hosted model, whose
    answer may depend on everything it was sent before. *)
Class Externals := {
  pixels : Type;
  Image_open : bytes -> result (Image pixels);
  im_convert : pixels -> string -> string -> result pixels;
  im_resize : pixels -> Z * Z -> result pixels;
  Image_save : Image pixels -> string -> option Z -> result bytes;
  b64encode : bytes -> string;
  hosted_model : list chat_request -> chat_request -> result ChatCompletion
}.

Section Service.

Context {ext : Externals}.

Definition M (A : Type) : Type := world pixels -> result A * world pixels.

Definition ret {A} (a : A) : M A := fun w => (ok a, w).
Definition throw {A} (e : exn) : M A := fun w => (inl e, w).
Definition bind {A B} (m : M A) (k : A -> M B) : M B :=
  fun w => match m w with
           | (inr a, w') => k a w'
           | (inl e, w') => (inl e, w')
           end.
Definition lift {A} (r : result A) : M A := fun w => (r, w).

(** [try: m  except Exception as e: h e] *)
Definition try_except {A} (m : M A) (h : exn -> M A) : M A :=
  fun w => match m w with
           | (inl e, w') => h e w'
           | (inr a, w') => (inr a, w')
           end.

Notation "'let*' x ':=' m 'in' k" := (bind m (fun x => k))
  (at level 10, x name, m at level 100, k at level 200).

(** A new object *)
Definition alloc (img : Image pixels) : M loc :=
  fun w => (ok (length (heap w)), {| heap := heap w ++ [img]; calls := calls w |}).

(** Reading through a reference.  References are only ever obtained
    from [alloc], so the second branch is not reached by the service. *)
Definition deref (r : loc) : M (Image pixels) :=
  fun w => match heap w !! r with
           | Some img => (ok img, w)
           | None => (raise "ReferenceError" "no such object", w)
           end.

(** Overwriting the attributes of an existing object *)
Definition assign (r : loc) (img : Image pixels) : M unit :=
  fun w => (ok tt, {| heap := <[r := img]> (heap w); calls := calls w |}).

(** *** Pillow methods *)

(** [Image.open(BytesIO(data))] *)
Definition Image_open_bytes (data : bytes) : M loc :=
  let* img := lift (Image_open data) in alloc img.

(** [self.convert(mode)]: a new image; [format] is an attribute of
    opened files only and is [None] on the copy. *)
Definition convert (self : loc) (to : string) : M loc :=
  let* img := deref self in
  let* px := lift (im_convert (im img) (mode img) to) in
  alloc {| mode := to; size := size img; format := None; im := px |}.

(** [self.thumbnail(size, resample)]: in place. *)
Definition thumbnail (self : loc) (max_size : Z * Z) : M unit :=
  let* img := deref self in
  let* preserved := lift (Thumbnail.preserve_aspect_ratio (size img) max_size) in
  match preserved with
  | None => ret tt
  | Some final_size =>
      if bool_decide (size img = final_size) then ret tt
      else
        let* px := lift (im_resize (im img) final_size) in
        assign self {| mode := mode img; size := final_size;
                       format := format img; im := px |}
  end.

(** [self.save(buffer, format=..., quality=...)] followed by
    [buffer.getvalue()]; the JPEG call's [optimize=True] is part of what
    [Image_save] stands for. *)
Definition save (self : loc) (fmt : string) (quality : option Z) : M bytes :=
  let* img := deref self in lift (Image_save img fmt quality).

(** *** utils/image_processing.py *)

Definition load_image_as_pillow (image_bytes : bytes) : M loc :=
  try_except
    (let* image := Image_open_bytes image_bytes in
     let* img := deref image in
     if negb (str_in (mode img) ["RGB"; "L"]) then convert image "RGB"
     else ret image)
    (fun e => throw (Exn "ValueError" ("Failed to load image: " +:+ exn_str e))).

(** The defaults of [max_size] and [quality] *)
Definition default_max_size : Z * Z := (1024, 1024)%Z.
Definition default_quality : Z := 85.

Definition resize_image (image : loc) (max_size : Z * Z) : M loc :=
  let* _ := thumbnail image max_size in
  ret image.

Definition default_allowed_formats : list string := ["JPEG"; "PNG"; "JPG"; "WEBP"].

(** [image.format in allowed_formats]; [None] equals no string. *)
Definition validate_image_format (img : Image pixels) (allowed_formats : option (list string)) : bool :=
  let allowed_formats :=
    match allowed_formats with
    | None => default_allowed_formats
    | Some l => l
    end in
  match format img with
  | None => false
  | Some f => str_in f allowed_formats
  end.

Definition optimize_image_for_api (image : loc) (max_size : Z * Z) (quality : Z) : M bytes :=
  let* img := deref image in
  let* image :=
    if (fst (size img) >? fst max_size)%Z || (snd (size img) >? snd max_size)%Z
    then resize_image image max_size
    else ret image in
  let* img := deref image in
  let* image :=
    if negb (str_in (mode img) ["RGB"; "L"]) then convert image "RGB"
    else ret image in
  save image "JPEG" (Some quality).

(** *** utils/vision_analysis.py *)

Definition prompt : string := "
You are a comic book expert. Analyze this comic cover and extract:

- Title
- Issue Number
- Publisher
- Publication Year
- Variant (if any)
- Key Characters appearing
- Key events or story arc
- Artist / Writer (if visible on cover)
- Notable markings or features

If unsure, give your best guess.
Return JSON ONLY.
".

(** [client.chat.completions.create(...)]: one request goes out and is
    remembered, whatever comes back.  A request is one call of [create];
    what the client library repeats underneath on its own account is not
    told apart. *)
Definition chat_completions_create (req : chat_request) : M ChatCompletion :=
  fun w => (hosted_model (calls w) req,
            {| heap := heap w; calls := calls w ++ [req] |}).

Definition vision_request (img_b64 : string) : chat_request :=
  {| model := "gpt-4o";
     messages :=
       [ {| role := "user";
            content :=
              [ TextPart prompt;
                ImageUrlPart ("data:image/png;base64," +:+ img_b64) ] |} ] |}.

(** [response.choices[0].message.content] *)
Definition first_content (resp : ChatCompletion) : result (option string) :=
  match choices resp with
  | c :: _ => ok (message_content c)
  | [] => raise "IndexError" "list index out of range"
  end.

Definition analyze_comic_cover (pil_image : loc) : M json :=
  let* buffered := save pil_image "PNG" None in
  let img_b64 := b64encode buffered in
  let* resp := chat_completions_create (vision_request img_b64) in
  let* result := lift (first_content resp) in
  lift (json_loads result).

(** *** routes/identify.py *)

Definition identify_comic (image : bytes) (user_id : string) : M response :=
  try_except
    (let* pil_image := load_image_as_pillow image in
     let* identification := analyze_comic_cover pil_image in
     ret {| status_code := 200;
            body := JDict [("user_id", JStr user_id);
                           ("metadata", identification)] |})
    (fun e =>
       ret {| status_code := 500;
              body := JDict [("detail",
                              JStr ("Identification error: " +:+ exn_str e))] |}).

End Service.

(** ** main.py: the health endpoint *)

(** What the process can see of its surroundings: [os.environ], the paths
    of [app.routes], and [sys.version]. *)
Record process := {
  environ : gmap string string;
  routes : list string;
  sys_version : string
}.

(** [os.getenv(name)] and [os.getenv(name, default)] *)
Definition getenv (p : process) (name : string) : option string :=
  environ p !! name.

Definition getenv_default (p : process) (name fallback : string) : string :=
  default fallback (environ p !! name).

(** [bool(v)] for a value that is [None] or a [str] *)
Definition truthy (v : option string) : bool :=
  match v with
  | None => false
  | Some s => negb (String.eqb s "")
  end.

Definition health_check (p : process) : json :=
  let openai_configured := truthy (getenv p "OPENAI_API_KEY") in
  let routes_loaded := existsb (fun path => String.eqb path "/api/comics/identify") (routes p) in
  JDict [("status", JStr "healthy");
         ("openai_configured", JBool openai_configured);
         ("routes_loaded", JBool routes_loaded);
         ("python_version", JStr (sys_version p));
         ("environment", JStr (getenv_default p "ENVIRONMENT" "production"))].

(** [process] with one more variable in its environment *)
Definition setenv (p : process) (name value : string) : process :=
  {| environ := <[name := value]> (environ p);
     routes := routes p;
     sys_version := sys_version p |}.

(** [obj[key]] on a decoded JSON value *)
Definition field (key : string) (obj : json) : option json :=
  match obj with
  | JDict d => dict_get key d
  | _ => None
  end.

(** ** The replies and failures the properties speak about *)

(** Writes a text whose double quotes are typed as apostrophes. *)
Definition double_quoted (s : string) : string :=
  string_of_list_ascii
    (map (fun c => if Ascii.eqb c "'" then "034"%char else c)
         (list_ascii_of_string s)).

Definition spider_man_reply : string :=
  double_quoted "{'title': 'Amazing Spider-Man', 'issue': '1'}".

Definition spider_man_metadata : json :=
  JDict [("title", JStr "Amazing Spider-Man"); ("issue", JStr "1")].

Definition fenced_reply : string :=
  double_quoted "```json
{'title': 'Amazing Spider-Man', 'issue': '1'}
```".

(** The body of a failed identification *)
Definition identification_error (e : exn) : response :=
  {| status_code := 500;
     body := JDict [("detail", JStr ("Identification error: " +:+ exn_str e))] |}.

Section Failures.

Context {ext : Externals}.

(** What [load_image_as_pillow] raises for the failure [e] underneath *)
Definition value_error (e : exn) : exn :=
  Exn "ValueError" ("Failed to load image: " +:+ exn_str e).

(** [w] after the objects [imgs] were allocated *)
Definition grown (w : world pixels) (imgs : list (Image pixels)) : world pixels :=
  {| heap := heap w ++ imgs; calls := calls w |}.

(** [w] after one more request went out *)
Definition called (w : world pixels) (req : chat_request) : world pixels :=
  {| heap := heap w; calls := calls w ++ [req] |}.

(** The ways the body of [identify_comic] can raise, step by step: the
    upload does not load; the image cannot be written out as PNG; the
    outbound call raises; the completion has no choice; the reply does
    not parse.  [w'] is the world the exception leaves behind. *)
Inductive pipeline_failure (image : bytes) (w : world pixels) :
  exn -> world pixels -> Prop :=
| decode_failure e w' :
    load_image_as_pillow image w = (inl e, w') ->
    pipeline_failure image w e w'
| encode_failure pil w1 e w' :
    load_image_as_pillow image w = (inr pil, w1) ->
    save pil "PNG" None w1 = (inl e, w') ->
    pipeline_failure image w e w'
| transport_failure pil w1 png w2 e :
    load_image_as_pillow image w = (inr pil, w1) ->
    save pil "PNG" None w1 = (inr png, w2) ->
    hosted_model (calls w2) (vision_request (b64encode png)) = inl e ->
    pipeline_failure image w e (called w2 (vision_request (b64encode png)))
| empty_completion pil w1 png w2 resp e :
    load_image_as_pillow image w = (inr pil, w1) ->
    save pil "PNG" None w1 = (inr png, w2) ->
    hosted_model (calls w2) (vision_request (b64encode png)) = inr resp ->
    first_content resp = inl e ->
    pipeline_failure image w e (called w2 (vision_request (b64encode png)))
| parse_failure pil w1 png w2 resp reply e :
    load_image_as_pillow image w = (inr pil, w1) ->
    save pil "PNG" None w1 = (inr png, w2) ->
    hosted_model (calls w2) (vision_request (b64encode png)) = inr resp ->
    first_content resp = inr reply ->
    json_loads reply = inl e ->
    pipeline_failure image w e (called w2 (vision_request (b64encode png))).

End Failures.

(** ** A small stand-in for the libraries

    Enough to run the service on concrete inputs.  A raster is reduced to
    whether its data decodes; an upload is an image as soon as it is not
    empty: its first byte says whether it is palette based, and its data
    is damaged when nothing follows that byte.  Opening reads the first
    byte only, as [Image.open] reads the header only; converting,
    resampling and saving need the data.  The hosted model always gives
    the same answer. *)
Module Toy.

Definition truncated {A} : result A :=
  raise "OSError" "image file is truncated".

Definition open (data : bytes) : result (Image bool) :=
  match data with
  | [] => raise "UnidentifiedImageError" "cannot identify image file"
  | b :: rest =>
      ok {| mode := if Byte.eqb b x50 then "P" else "RGB";
            size := (2000, 1000)%Z;
            format := Some "PNG";
            im := match rest with [] => false | _ :: _ => true end |}
  end.

Definition externals (answer : result ChatCompletion) : Externals :=
  {| pixels := bool;
     Image_open := open;
     im_convert := fun px _ _ => if px then ok true else truncated;
     im_resize := fun px _ => if px then ok true else truncated;
     Image_save := fun img _ _ => if im img then ok [] else truncated;
     b64encode := fun _ => "";
     hosted_model := fun _ _ => answer |}.

Definition says (text : string) : result ChatCompletion :=
  ok {| choices := [ {| message_content := Some text |} ] |}.

Definition unreachable : result ChatCompletion :=
  raise "APIConnectionError" "Connection error.".

Definition cover : Image bool :=
  {| mode := "RGB"; size := (2000, 1000)%Z; format := Some "JPEG"; im := true |}.

Definition shelf : world bool := {| heap := [cover]; calls := [] |}.

Definition upload : bytes := [x89; x50; x4e; x47].
Definition palette_upload : bytes := [x50; x00].
Definition damaged_upload : bytes := [x89].
Definition damaged_palette_upload : bytes := [x50].

Definition machine : process :=
  {| environ := ∅; routes := ["/"; "/health"; "/api/comics/identify"];
     sys_version := "3.11.4" |}.

(** Whether one of the constants [NaN], [Infinity], [-Infinity] occurs
    in a value. *)
Fixpoint has_constant (v : json) : bool :=
  match v with
  | JFloat x => str_in x ["NaN"; "Infinity"; "-Infinity"]
  | JList xs =>
      (fix some (xs : list json) : bool :=
         match xs with
         | [] => false
         | x :: xs' => has_constant x || some xs'
         end) xs
  | JDict kvs =>
      (fix some (kvs : list (string * json)) : bool :=
         match kvs with
         | [] => false
         | (_, x) :: kvs' => has_constant x || some kvs'
         end) kvs
  | _ => false
  end.

(** An encoder that refuses the three constants, as
    [json.dumps(..., allow_nan=False)] does, and takes anything else. *)
Definition render (v : json) : result unit :=
  if has_constant v
  then raise "ValueError" "Out of range float values are not JSON compliant"
  else ok tt.

End Toy.

(** ** main.py: what runs when the module is imported *)

(** What is handed to the logger: the level and the message. *)
Record log_record := { levelname : string; message : string }.

Definition log_info (msg : string) : log_record :=
  {| levelname := "INFO"; message := msg |}.
Definition log_warning (msg : string) : log_record :=
  {| levelname := "WARNING"; message := msg |}.
Definition log_error (msg : string) : log_record :=
  {| levelname := "ERROR"; message := msg |}.

(** [s[:n]] on the UTF-8 bytes of a text: everything before the
    character number [n] (counting from zero) starts. *)
Fixpoint take_chars (n : nat) (s : list ascii) : list ascii :=
  match s with
  | [] => []
  | c :: s' =>
      if Json.is_char_start c then
        match n with
        | O => []
        | S n' => c :: take_chars n' s'
        end
      else c :: take_chars n s'
  end.

Definition str_prefix (n : nat) (s : string) : string :=
  string_of_list_ascii (take_chars n (list_ascii_of_string s)).

(** [len(s)] *)
Definition str_len (s : string) : nat :=
  Json.count_chars (list_ascii_of_string s).

(** The paths [FastAPI(docs_url="/docs", redoc_url="/redoc",
    openapi_url="/openapi.json")] registers by itself. *)
Definition documentation_routes : list string :=
  ["/openapi.json"; "/docs"; "/docs/oauth2-redirect"; "/redoc"].

(** The [try] around the import of [routes.identify]: the paths it adds
    to the application and what it logs.  [imported] is how the import
    (and [include_router]) went. *)
Definition include_identify_router (imported : result unit) :
  list string * list log_record :=
  match imported with
  | inr _ =>
      (["/api/comics/identify"],
       [log_info "✅ Identification router loaded successfully"])
  | inl e =>
      ([],
       [log_error ("❌ Failed to load identification router: " +:+ exn_str e);
        log_error "API will start but /api/comics/identify endpoint will not be available"])
  end.

(** The check of [OPENAI_API_KEY] that follows. *)
Definition log_openai_key (env : gmap string string) : log_record :=
  let openai_key := env !! "OPENAI_API_KEY" in
  if truthy openai_key then
    log_info ("✅ OPENAI_API_KEY is configured (starts with: "
              +:+ str_prefix 10 (default "" openai_key) +:+ "...)")
  else
    log_warning "⚠️  OPENAI_API_KEY is not set - AI features will not work".

(** The process once [main] is imported, and everything logged on the
    way, in order, given how the import of the router went ([start_up]
    below ties that to the environment). *)
Definition import_main (env : gmap string string) (version : string)
    (imported : result unit) : process * list log_record :=
  let banner := string_of_list_ascii (repeat "="%char 60) in
  let '(identify_routes, router_log) := include_identify_router imported in
  ({| environ := env;
      routes := documentation_routes ++ identify_routes ++ ["/"; "/health"];
      sys_version := version |},
   [log_info banner;
    log_info "Comic Vault API - Starting up...";
    log_info banner;
    log_info "✅ FastAPI app created successfully";
    log_info "✅ CORS middleware configured"]
   ++ router_log
   ++ [log_openai_key env]).

(** [client = OpenAI()] at the top of [utils/vision_analysis.py]: the
    constructor reads [OPENAI_API_KEY] and raises when the variable is
    not set (an empty value is accepted). *)
Definition OpenAI_client (env : gmap string string) : result unit :=
  match env !! "OPENAI_API_KEY" with
  | None =>
      raise "OpenAIError"
            "The api_key client option must be set either by passing api_key to the client or by setting the OPENAI_API_KEY environment variable"
  | Some _ => ok tt
  end.

(** [from routes.identify import router] followed by
    [app.include_router(...)].  The import runs [routes/identify.py],
    which imports [utils.vision_analysis], which makes the client.
    [before] is how the imports that come first go (the framework, Pillow,
    the [openai] package), [after] how the rest goes (the route's
    declaration and [include_router]). *)
Definition import_identify_router (env : gmap string string)
    (before after : result unit) : result unit :=
  match before with
  | inl e => inl e
  | inr _ =>
      match OpenAI_client env with
      | inl e => inl e
      | inr _ => after
      end
  end.

(** [main] imported in the environment [env]. *)
Definition start_up (env : gmap string string) (version : string)
    (before after : result unit) : process * list log_record :=
  import_main env version (import_identify_router env before after).

(** [root()] *)
Definition root : json :=
  JDict [("message", JStr "Comic Vault API");
         ("version", JStr "1.0.0");
         ("status", JStr "running");
         ("endpoints",
          JDict [("health", JStr "/health");
                 ("docs", JStr "/docs");
                 ("identify", JStr "/api/comics/identify")])].

(** [global_exception_handler(request, exc)], with [url] for
    [str(request.url)] *)
Definition global_exception_handler (url : string) (exc : exn) : response :=
  {| status_code := 500;
     body := JDict [("error", JStr "Internal server error");
                    ("message", JStr (exn_str exc));
                    ("path", JStr url)] |}.

Section Serving.

Context {ext : Externals}.

(** A handler behind the framework and the application's exception
    handler.  [render] is the framework's encoding of a body
    ([jsonable_encoder] and [JSONResponse.render], that is
    [json.dumps(content, allow_nan=False, ...).encode("utf-8")]), which
    raises for what it cannot encode, a float that is not finite for one.
    A dict that a handler returns is encoded once the handler has
    returned, and a [JSONResponse] made in an [except] clause is encoded
    by its constructor, outside any [try]: either way an exception of the
    encoding leaves the handler's reach.  What the client gets is the
    handler's response when it can be encoded, and the global handler's
    when an exception leaves the handler or the encoding. *)
Definition guarded (render : json -> result unit)
    (handler : world pixels -> result response * world pixels)
    (url : string) (w : world pixels) : response * world pixels :=
  match handler w with
  | (inr answer, w') =>
      match render (body answer) with
      | inr _ => (answer, w')
      | inl exc => (global_exception_handler url exc, w')
      end
  | (inl exc, w') => (global_exception_handler url exc, w')
  end.

End Serving.

(** ** Replies that cannot be JSON *)

(** The characters a JSON text can begin with, as [json.loads] reads it:
    whitespace, the quote, the brace, the bracket, the minus sign, a
    digit, and the first letters of [null], [true], [false], [NaN] and
    [Infinity]. *)
Definition json_first_chars : list ascii :=
  [" "; "009"; "010"; "013"; "034"; "{"; "["; "-";
   "0"; "1"; "2"; "3"; "4"; "5"; "6"; "7"; "8"; "9";
   "n"; "t"; "f"; "N"; "I"]%char.

(** An ASCII character that is none of them (a backtick, most letters). *)
Definition cannot_start_json (c : ascii) : bool :=
  (nat_of_ascii c <? 128)%nat && negb (existsb (Ascii.eqb c) json_first_chars).

(** A text made of the decoder's whitespace only: spaces, tabs, line
    feeds and carriage returns. *)
Definition is_padding (s : string) : bool :=
  forallb Json.is_ws (list_ascii_of_string s).

(** * Properties *)

(** Unfolds the monad so that a computation reads as nested matches. *)
Ltac unfold_monad :=
  unfold try_except, bind, lift, ret, throw, alloc, deref, assign, ok, raise in *;
  cbn [heap calls fst snd] in *.

(** ** The decoder never runs out of fuel *)

Module JsonFacts.

Import Json.

Lemma skip_ws_length s i : length (skip_ws s i).1 <= length s.
Proof.
  revert i. induction s as [|c s IH]; intros i; cbn; [done|].
  destruct (is_ws c); cbn; [|done]. specialize (IH (S i)). lia.
Qed.

Lemma strip_prefix_length p s r :
  strip_prefix p s = Some r -> length r + length p = length s.
Proof.
  revert s. induction p as [|a p IH]; intros [|b s]; cbn; try done.
  - intros [= <-]. cbn. lia.
  - intros [= <-]. cbn. lia.
  - destruct (Ascii.eqb a b); [|done]. intros Hr%IH. lia.
Qed.

Lemma take_digits_length s : length (take_digits s).2 <= length s.
Proof.
  induction s as [|c s IH]; cbn; [done|].
  destruct (is_digit c); [|done].
  destruct (take_digits s) as [ds r]. cbn in *. lia.
Qed.

Lemma next_is_length c s r : next_is c s = Some r -> S (length r) = length s.
Proof.
  destruct s as [|x s']; [done|]. cbn.
  destruct (Ascii.eqb x c); [|done]. by intros [= <-].
Qed.

Lemma match_integer_length s lexeme r :
  match_integer s = Some (lexeme, r) -> length r < length s.
Proof.
  unfold match_integer.
  assert (forall s1 sign, length s1 <= length s ->
            match s1 with
            | [] => None
            | c :: s2 =>
                if Ascii.eqb c "0" then Some (sign ++ [c], s2)
                else if is_digit c
                     then let '(ds, r) := take_digits s2 in Some (sign ++ c :: ds, r)
                     else None
            end = Some (lexeme, r) -> length r < length s) as Hbody.
  { intros [|c s2] sign Hlen; [done|]. cbn in Hlen.
    destruct (Ascii.eqb c "0"); [intros [= _ <-]; lia|].
    destruct (is_digit c); [|done].
    pose proof (take_digits_length s2) as Hd.
    destruct (take_digits s2) as [ds r']. intros [= _ <-]. cbn in Hd. lia. }
  destruct (next_is "-" s) as [s'|] eqn:Hminus; apply Hbody; [|done].
  apply next_is_length in Hminus. lia.
Qed.

Lemma match_frac_length s : length (match_frac s).2 <= length s.
Proof.
  unfold match_frac. destruct (next_is "." s) as [s'|] eqn:Hdot; [|done].
  apply next_is_length in Hdot.
  pose proof (take_digits_length s') as Hd.
  destruct (take_digits s') as [[|d ds] r]; cbn in *; lia.
Qed.

Lemma match_exp_length s : length (match_exp s).2 <= length s.
Proof.
  unfold match_exp. destruct s as [|e s']; [done|].
  destruct (Ascii.eqb e "e" || Ascii.eqb e "E"); [|done].
  destruct s' as [|c s3]; [cbn; lia|].
  destruct (Ascii.eqb c "-" || Ascii.eqb c "+").
  - pose proof (take_digits_length s3) as Hd.
    destruct (take_digits s3) as [[|d ds] r]; cbn in *; lia.
  - pose proof (take_digits_length (c :: s3)) as Hd.
    destruct (take_digits (c :: s3)) as [[|d ds] r]; cbn in *; lia.
Qed.

Lemma settled_number s i r :
  scan_number s i = Some r -> settled (inr r : parse json) (length s).
Proof.
  unfold scan_number.
  destruct (match_integer s) as [[integer s1]|] eqn:Hint; [|done].
  apply match_integer_length in Hint.
  pose proof (match_frac_length s1) as Hfrac.
  destruct (match_frac s1) as [frac s2].
  pose proof (match_exp_length s2) as Hexp.
  destruct (match_exp s2) as [exp s3].
  intros [= <-]. cbn in *. lia.
Qed.

Lemma settled_word w v s i r :
  scan_word w v s i = Some r -> settled (inr r : parse json) (length s).
Proof.
  unfold scan_word. destruct (strip_prefix (lit w) s) as [rest|] eqn:Hw; [|done].
  apply strip_prefix_length in Hw. intros [= <-]. cbn. lia.
Qed.

Lemma settled_atom s i : settled (scan_atom s i) (length s).
Proof.
  unfold scan_atom.
  repeat lazymatch goal with
  | |- settled (match scan_word ?w ?v s i with Some _ => _ | None => _ end) _ =>
      let H := fresh in
      destruct (scan_word w v s i) eqn:H; [exact (settled_word _ _ _ _ _ H)|]
  | |- settled (match scan_number s i with Some _ => _ | None => _ end) _ =>
      let H := fresh in
      destruct (scan_number s i) eqn:H; [exact (settled_number _ _ _ H)|]
  end.
  exact I.
Qed.

Lemma decode_uXXXX_length s u r :
  decode_uXXXX s = Some (u, r) -> length r + 4 = length s.
Proof.
  destruct s as [|a [|b [|c [|d [|x s']]]]]; cbn; try done.
  destruct (hex_value a), (hex_value b), (hex_value c), (hex_value d); try done.
  intros [= _ <-]. cbn. lia.
Qed.

Lemma settled_join_surrogates uni s i :
  match join_surrogates uni s i with
  | inl OutOfFuel => False
  | inl _ => True
  | inr (_, rest, _) => length rest <= length s
  end.
Proof.
  unfold join_surrogates. destruct (is_high_surrogate uni); [|done].
  destruct (strip_prefix (lit "\u") s) as [s'|] eqn:Hs; [|done].
  apply strip_prefix_length in Hs.
  destruct (decode_uXXXX s') as [[uni2 s2]|] eqn:Hd; [|done].
  apply decode_uXXXX_length in Hd.
  destruct (is_low_surrogate uni2); cbn in *; lia.
Qed.

Lemma settled_scanstring fuel begin s i :
  settled (scanstring_loop fuel begin s i) (length s).
Proof.
  revert s i. induction fuel as [|f IH]; intros s i; [done|].
  destruct s as [|c s']; [done|]. cbn [scanstring_loop].
  destruct (Ascii.eqb c "034"); [cbn; lia|].
  destruct (Ascii.eqb c "092").
  - destruct s' as [|esc s2]; [done|].
    destruct (Ascii.eqb esc "u").
    + destruct (decode_uXXXX s2) as [[uni s3]|] eqn:Hd; [|done].
      apply decode_uXXXX_length in Hd.
      pose proof (settled_join_surrogates uni s3 (i + 6)) as Hj.
      destruct (join_surrogates uni s3 (i + 6)) as [[]|[[uni' s4] i4]]; try done.
      specialize (IH s4 i4).
      destruct (scanstring_loop f begin s4 i4) as [[]|[[cs s5] i5]];
        cbn in *; try done; lia.
    + destruct (backslash esc); [|done].
      specialize (IH s2 (i + 2)).
      destruct (scanstring_loop f begin s2 (i + 2)) as [[]|[[cs s5] i5]];
        cbn in *; try done; lia.
  - destruct (nat_of_ascii c <? 32)%nat; [done|].
    specialize (IH s' (S i)).
    destruct (scanstring_loop f begin s' (S i)) as [[]|[[cs s5] i5]];
      cbn in *; try done; lia.
Qed.

(** The length of the text is fuel enough for [scanstring_loop]: any two
    such amounts give the same result. *)
Lemma scanstring_fuel f1 f2 begin s i :
  length s <= f1 -> length s <= f2 ->
  scanstring_loop f1 begin s i = scanstring_loop f2 begin s i.
Proof.
  revert f2 s i. induction f1 as [|f1 IH]; intros [|f2] [|c s'] i; cbn [length];
    try (reflexivity || lia).
  intros Hf1 Hf2. cbn [scanstring_loop].
  destruct (Ascii.eqb c "034"); [done|].
  destruct (Ascii.eqb c "092").
  - destruct s' as [|esc s2]; [done|]. cbn [length] in *.
    destruct (Ascii.eqb esc "u").
    + destruct (decode_uXXXX s2) as [[uni s3]|] eqn:Hd; [|done].
      apply decode_uXXXX_length in Hd.
      pose proof (settled_join_surrogates uni s3 (i + 6)) as Hj.
      destruct (join_surrogates uni s3 (i + 6)) as [e|[[uni' s4] i4]]; [done|].
      by rewrite (IH f2 s4 i4) by lia.
    + destruct (backslash esc); [|done].
      by rewrite (IH f2 s2 (i + 2)) by lia.
  - destruct (nat_of_ascii c <? 32)%nat; [done|].
    by rewrite (IH f2 s' (S i)) by lia.
Qed.

(** Names what [skip_ws] returns and records that it consumed input. *)
Ltac name_skip_ws s i s1 i1 H :=
  pose proof (skip_ws_length s i) as H;
  destruct (skip_ws s i) as [s1 i1]; cbn [fst] in H.

(** Twice the length of the input, and one more, is fuel enough for a
    value; the loops are entered one character further on and get by with
    what is left. *)
Lemma scan_settles fuel s i :
  (2 * length s + 1 <= fuel -> settled (scan_once fuel s i) (length s))
  /\ (2 * length s + 2 <= fuel -> settled (object_loop fuel s i) (length s))
  /\ (2 * length s + 2 <= fuel -> settled (array_loop fuel s i) (length s)).
Proof.
  revert s i. induction fuel as [|f IH]; intros s i; [repeat split; lia|].
  split; [|split]; intros Hfuel.
  - destruct s as [|c s']; [done|]. cbn [scan_once length] in *.
    destruct (Ascii.eqb c "034").
    { pose proof (settled_scanstring (length s') (S i - 1) s' (S i)) as Hstr.
      unfold scanstring.
      destruct (scanstring_loop _ _ _ _) as [[]|[[cs s1] i1]]; cbn in *; try done; lia. }
    destruct (Ascii.eqb c "{").
    { name_skip_ws s' (S i) s1 i1 Hws.
      destruct (next_is "}" s1) as [s2|] eqn:Hclose.
      { apply next_is_length in Hclose. cbn. lia. }
      destruct (next_is "034" s1) as [s2|] eqn:Hquote; [|done].
      apply next_is_length in Hquote.
      destruct (IH s2 (S i1)) as (_ & Hobj & _).
      specialize (Hobj ltac:(lia)).
      destruct (object_loop f s2 (S i1)) as [[]|[[pairs s3] i3]];
        cbn in *; try done; lia. }
    destruct (Ascii.eqb c "[").
    { name_skip_ws s' (S i) s1 i1 Hws.
      destruct (next_is "]" s1) as [s2|] eqn:Hclose.
      { apply next_is_length in Hclose. cbn. lia. }
      destruct (IH s1 i1) as (_ & _ & Harr).
      specialize (Harr ltac:(lia)).
      destruct (array_loop f s1 i1) as [[]|[[values s3] i3]];
        cbn in *; try done; lia. }
    apply (settled_atom (c :: s') i).
  - cbn [object_loop].
    pose proof (settled_scanstring (length s) (i - 1) s i) as Hstr.
    unfold scanstring.
    destruct (scanstring_loop _ _ _ _) as [[]|[[key s1] i1]]; cbn in Hstr; try done.
    name_skip_ws s1 i1 s2 i2 Hws2.
    destruct (next_is ":" s2) as [s3|] eqn:Hcolon; [|done].
    apply next_is_length in Hcolon.
    name_skip_ws s3 (S i2) s4 i4 Hws4.
    destruct (IH s4 i4) as (Hval & _ & _).
    specialize (Hval ltac:(lia)).
    destruct (scan_once f s4 i4) as [[]|[[value s5] i5]]; cbn in Hval; try done.
    cbn zeta.
    name_skip_ws s5 i5 s6 i6 Hws6.
    destruct (next_is "}" s6) as [s7|] eqn:Hclose.
    { apply next_is_length in Hclose. cbn. lia. }
    destruct (next_is "," s6) as [s7|] eqn:Hcomma; [|done].
    apply next_is_length in Hcomma.
    name_skip_ws s7 (S i6) s8 i8 Hws8.
    destruct (next_is "034" s8) as [s9|] eqn:Hquote; [|done].
    apply next_is_length in Hquote.
    destruct (IH s9 (S i8)) as (_ & Hobj & _).
    specialize (Hobj ltac:(lia)).
    destruct (object_loop f s9 (S i8)) as [[]|[[pairs sa] ia]];
      cbn in *; try done; lia.
  - cbn [array_loop].
    destruct (IH s i) as (Hval & _ & _).
    specialize (Hval ltac:(lia)).
    destruct (scan_once f s i) as [[]|[[value s1] i1]]; cbn in Hval; try done.
    name_skip_ws s1 i1 s2 i2 Hws2.
    destruct (next_is "]" s2) as [s3|] eqn:Hclose.
    { apply next_is_length in Hclose. cbn. lia. }
    destruct (next_is "," s2) as [s3|] eqn:Hcomma; [|done].
    apply next_is_length in Hcomma.
    name_skip_ws s3 (S i2) s4 i4 Hws4.
    destruct (IH s4 i4) as (_ & _ & Harr).
    specialize (Harr ltac:(lia)).
    destruct (array_loop f s4 i4) as [[]|[[values s5] i5]];
      cbn in *; try done; lia.
Qed.

(** A scan that did not stop for lack of fuel gives the same result with
    any larger amount. *)
Lemma scan_more_fuel f f' s i :
  f <= f' ->
  (scan_once f s i <> inl OutOfFuel -> scan_once f' s i = scan_once f s i)
  /\ (object_loop f s i <> inl OutOfFuel -> object_loop f' s i = object_loop f s i)
  /\ (array_loop f s i <> inl OutOfFuel -> array_loop f' s i = array_loop f s i).
Proof.
  revert f' s i. induction f as [|f IH]; intros [|f'] s i Hle; try lia;
    [repeat split; done..|].
  assert (Hle' : f <= f') by lia.
  split; [|split]; cbn [scan_once object_loop array_loop].
  - destruct s as [|c s']; [done|].
    destruct (Ascii.eqb c "034"); [done|].
    destruct (Ascii.eqb c "{").
    { destruct (skip_ws s' (S i)) as [s1 i1].
      destruct (next_is "}" s1); [done|].
      destruct (next_is "034" s1) as [s2|]; [|done].
      destruct (IH f' s2 (S i1) Hle') as (_ & Hobj & _).
      destruct (object_loop f s2 (S i1)) as [[msg pos|]|r] eqn:Hrun;
        [by rewrite Hobj..|done|by rewrite Hobj]. }
    destruct (Ascii.eqb c "["); [|done].
    destruct (skip_ws s' (S i)) as [s1 i1].
    destruct (next_is "]" s1); [done|].
    destruct (IH f' s1 i1 Hle') as (_ & _ & Harr).
    destruct (array_loop f s1 i1) as [[msg pos|]|r] eqn:Hrun;
      [by rewrite Harr|done|by rewrite Harr].
  - destruct (scanstring s i) as [e|[[key s1] i1]]; [done|].
    destruct (skip_ws s1 i1) as [s2 i2].
    destruct (next_is ":" s2) as [s3|]; [|done].
    destruct (skip_ws s3 (S i2)) as [s4 i4].
    destruct (IH f' s4 i4 Hle') as (Hval & _ & _).
    destruct (scan_once f s4 i4) as [[msg pos|]|[[value s5] i5]] eqn:Hrun;
      [by rewrite Hval|done|rewrite Hval by done].
    cbn zeta. destruct (skip_ws s5 i5) as [s6 i6].
    destruct (next_is "}" s6); [done|].
    destruct (next_is "," s6) as [s7|]; [|done].
    destruct (skip_ws s7 (S i6)) as [s8 i8].
    destruct (next_is "034" s8) as [s9|]; [|done].
    destruct (IH f' s9 (S i8) Hle') as (_ & Hobj & _).
    destruct (object_loop f s9 (S i8)) as [[msg pos|]|r] eqn:Hrun';
      [by rewrite Hobj|done|by rewrite Hobj].
  - destruct (IH f' s i Hle') as (Hval & _ & _).
    destruct (scan_once f s i) as [[msg pos|]|[[value s1] i1]] eqn:Hrun;
      [by rewrite Hval|done|rewrite Hval by done].
    destruct (skip_ws s1 i1) as [s2 i2].
    destruct (next_is "]" s2); [done|].
    destruct (next_is "," s2) as [s3|]; [|done].
    destruct (skip_ws s3 (S i2)) as [s4 i4].
    destruct (IH f' s4 i4 Hle') as (_ & _ & Harr).
    destruct (array_loop f s4 i4) as [[msg pos|]|r] eqn:Hrun';
      [by rewrite Harr|done|by rewrite Harr].
Qed.

(** So the amounts [scanstring] and [decode] hand out are as good as
    any larger ones. *)
Lemma scanstring_enough_fuel f s i :
  length s <= f -> scanstring_loop f (i - 1) s i = scanstring s i.
Proof. intros Hf. by apply scanstring_fuel. Qed.

Lemma scan_once_fuel f s i :
  2 * length s + 1 <= f -> scan_once f s i = scan_once (2 * length s + 1) s i.
Proof.
  intros Hf. apply scan_more_fuel; [done|].
  destruct (scan_settles (2 * length s + 1) s i) as (Hval & _).
  specialize (Hval ltac:(lia)). intros Hout. by rewrite Hout in Hval.
Qed.

(** [decode] ends in a value or in a [JSONDecodeError]. *)
Lemma decode_settles s : decode s <> inl OutOfFuel.
Proof.
  unfold decode. name_skip_ws s 0 s0 i0 Hws.
  destruct (scan_settles (2 * length s + 1) s0 i0) as (Hval & _).
  specialize (Hval ltac:(lia)).
  destruct (scan_once _ s0 i0) as [[]|[[obj s1] i1]]; [done..|].
  destruct (skip_ws s1 i1) as [[|c s2] i2]; done.
Qed.

(** [json.loads] on a text returns a value or raises [JSONDecodeError]. *)
Lemma json_loads_text text :
  (exists v, json_loads (Some text) = ok v)
  \/ (exists msg, json_loads (Some text) = inl (Exn "JSONDecodeError" msg)).
Proof.
  unfold json_loads. case_bool_decide; [right; eauto|].
  pose proof (decode_settles (list_ascii_of_string text)) as Hsettles.
  destruct (decode _) as [[msg pos|]|v]; [right|done|left]; cbn; eauto.
Qed.

End JsonFacts.


Section Properties.

Context {ext : Externals}.

Implicit Types (w : world pixels) (img : Image pixels) (r : loc).

(** ** The store *)

Lemma lookup_fresh (h : list (Image pixels)) img :
  (h ++ [img]) !! length h = Some img.
Proof. by apply list_lookup_middle. Qed.

Lemma deref_some w r img :
  heap w !! r = Some img -> deref r w = (ok img, w).
Proof. unfold deref. by intros ->. Qed.

(** ** [load_image_as_pillow], step by step *)

Lemma load_open_fails data w e :
  Image_open data = inl e ->
  load_image_as_pillow data w = (inl (value_error e), w).
Proof.
  intros Hopen.
  unfold load_image_as_pillow, Image_open_bytes. unfold_monad.
  by rewrite Hopen.
Qed.

Lemma load_supported_mode data w src :
  Image_open data = inr src ->
  str_in (mode src) ["RGB"; "L"] = true ->
  load_image_as_pillow data w = (ok (length (heap w)), grown w [src]).
Proof.
  intros Hopen Hmode.
  unfold load_image_as_pillow, Image_open_bytes. unfold_monad.
  rewrite Hopen. cbn [heap]. rewrite lookup_fresh, Hmode. reflexivity.
Qed.

Lemma load_other_mode data w src :
  Image_open data = inr src ->
  str_in (mode src) ["RGB"; "L"] = false ->
  load_image_as_pillow data w =
    match im_convert (im src) (mode src) "RGB" with
    | inl e => (inl (value_error e), grown w [src])
    | inr px =>
        (ok (S (length (heap w))),
         grown w [src; {| mode := "RGB"; size := size src;
                          format := None; im := px |}])
    end.
Proof.
  intros Hopen Hmode.
  unfold load_image_as_pillow, Image_open_bytes, convert. unfold_monad.
  rewrite Hopen. cbn [heap]. rewrite lookup_fresh, Hmode. cbn [negb heap].
  rewrite lookup_fresh.
  destruct (im_convert (im src) (mode src) "RGB") as [e|px]; [done|].
  cbn [heap calls]. rewrite length_app. cbn [length].
  rewrite Nat.add_1_r. unfold grown. by rewrite <- app_assoc.
Qed.

Lemma str_in_spec (x : string) (xs : list string) :
  str_in x xs = true <-> x ∈ xs.
Proof.
  unfold str_in. induction xs as [|y xs IH]; cbn [existsb].
  - split; [discriminate | by intros ?%elem_of_nil].
  - rewrite orb_true_iff, IH, elem_of_cons, String.eqb_eq. tauto.
Qed.

Lemma supported_mode_spec (m : string) :
  str_in m ["RGB"; "L"] = true <-> m = "RGB" \/ m = "L".
Proof. rewrite str_in_spec, !elem_of_cons, elem_of_nil. tauto. Qed.

(** ** What each operation does to the store *)

Lemma grown_nil w : grown w [] = w.
Proof. destruct w. unfold grown. cbn. by rewrite app_nil_r. Qed.


Lemma convert_allocates self to w out w' :
  convert self to w = (out, w') -> exists new, w' = grown w new.
Proof.
  unfold convert. unfold_monad.
  destruct (heap w !! self) as [img|].
  - destruct (im_convert _ _ _); intros [= _ <-].
    + exists []. by rewrite grown_nil.
    + by eexists [_].
  - intros [= _ <-]. exists []. by rewrite grown_nil.
Qed.

Lemma save_reads_only self fmt quality w out w' :
  save self fmt quality w = (out, w') -> w' = w.
Proof.
  unfold save. unfold_monad.
  destruct (heap w !! self); [destruct (Image_save _ _ _)|]; by intros [= _ <-].
Qed.

(** C3.  When the upload opens as an image with header [src],
    [load_image_as_pillow] returns exactly when no conversion is needed
    or the raster converts to RGB; and whenever it returns, the image
    it returns has mode RGB or L, and mode RGB if the source mode was
    neither of the two. *)
Theorem load_image_as_pillow_mode data w src :
  Image_open data = inr src ->
  is_ok (load_image_as_pillow data w).1
    = str_in (mode src) ["RGB"; "L"]
      || is_ok (im_convert (im src) (mode src) "RGB")
  /\ forall r w',
       load_image_as_pillow data w = (inr r, w') ->
       exists img,
         heap w' !! r = Some img
         /\ (mode img = "RGB" \/ mode img = "L")
         /\ (mode src <> "RGB" -> mode src <> "L" -> mode img = "RGB").
Proof.
  intros Hopen.
  destruct (str_in (mode src) ["RGB"; "L"]) eqn:Hmode.
  - rewrite (load_supported_mode _ _ _ Hopen Hmode). split; [done|].
    intros r w' [= <- <-]. exists src. cbn [grown heap].
    rewrite lookup_fresh. apply supported_mode_spec in Hmode.
    split; [done|]. split; [done|]. intros; tauto.
  - rewrite (load_other_mode _ _ _ Hopen Hmode).
    destruct (im_convert (im src) (mode src) "RGB") as [e|px]; split; try done.
    intros r w' [= <- <-]. eexists. cbn [grown heap]. split.
    + change [src; ?x] with ([src] ++ [x]). rewrite app_assoc.
      rewrite <- (Nat.add_1_r (length (heap w))).
      replace (length (heap w) + 1) with (length (heap w ++ [src]))
        by (rewrite length_app; reflexivity).
      apply lookup_fresh.
    + cbn [mode]. auto.
Qed.

(** ** [validate_image_format] *)

(** C10.  With the default list, [validate_image_format] is false for
    an image whose [format] is [None]; any image made by [convert] is
    such an image, so what [load_image_as_pillow] returns for a source
    whose mode is neither RGB nor L is rejected; and it is true exactly
    when [format] is one of JPEG, PNG, JPG, WEBP. *)
Theorem validate_image_format_default :
  (forall img, format img = None -> validate_image_format img None = false)
  /\ (forall self to w r w',
        convert self to w = (inr r, w') ->
        exists img, heap w' !! r = Some img
                    /\ format img = None
                    /\ validate_image_format img None = false)
  /\ (forall data w src r w',
        Image_open data = inr src ->
        str_in (mode src) ["RGB"; "L"] = false ->
        load_image_as_pillow data w = (inr r, w') ->
        exists img, heap w' !! r = Some img
                    /\ validate_image_format img None = false)
  /\ (forall img,
        validate_image_format img None = true
        <-> exists f, format img = Some f
                      /\ (f = "JPEG" \/ f = "PNG" \/ f = "JPG" \/ f = "WEBP")).
Proof.
  assert (Hnone : forall img, format img = None ->
                              validate_image_format img None = false).
  { intros img Hf. unfold validate_image_format. by rewrite Hf. }
  split; [exact Hnone|]. split; [|split].
  - intros self to w r w'. unfold convert. unfold_monad.
    destruct (heap w !! self) as [img|]; [|done].
    destruct (im_convert (im img) (mode img) to) as [e|px]; [done|].
    intros [= <- <-]. eexists. cbn [heap]. rewrite lookup_fresh.
    split; [done|]. split; [done|]. by apply Hnone.
  - intros data w src r w' Hopen Hmode.
    rewrite (load_other_mode _ _ _ Hopen Hmode).
    destruct (im_convert (im src) (mode src) "RGB") as [e|px]; [done|].
    intros [= <- <-]. eexists. cbn [grown heap]. split.
    + change [src; ?x] with ([src] ++ [x]). rewrite app_assoc.
      replace (S (length (heap w))) with (length (heap w ++ [src]))
        by (rewrite length_app; cbn; lia).
      apply lookup_fresh.
    + by apply Hnone.
  - intros img. unfold validate_image_format, default_allowed_formats.
    destruct (format img) as [f|].
    + rewrite str_in_spec, !elem_of_cons, elem_of_nil. split.
      * intros Hin. exists f. tauto.
      * intros (f' & [= <-] & Hf). tauto.
    + split; [done|]. by intros (f & ? & _).
Qed.

(** ** [analyze_comic_cover] and [identify_comic] *)

Lemma analyze_comic_cover_eq pil w :
  analyze_comic_cover pil w =
    match save pil "PNG" None w with
    | (inl e, w') => (inl e, w')
    | (inr png, w2) =>
        let req := vision_request (b64encode png) in
        match hosted_model (calls w2) req with
        | inl e => (inl e, called w2 req)
        | inr resp =>
            match first_content resp with
            | inl e => (inl e, called w2 req)
            | inr reply => (json_loads reply, called w2 req)
            end
        end
    end.
Proof.
  unfold analyze_comic_cover, bind at 1.
  destruct (save pil "PNG" None w) as [[e|png] w2]; [done|].
  unfold bind, chat_completions_create, lift, called.
  destruct (hosted_model _ _) as [e|resp]; [done|].
  by destruct (first_content resp).
Qed.

Lemma identify_comic_eq image user_id w :
  identify_comic image user_id w =
    match load_image_as_pillow image w with
    | (inl e, w') => (ok (identification_error e), w')
    | (inr pil, w1) =>
        match analyze_comic_cover pil w1 with
        | (inl e, w') => (ok (identification_error e), w')
        | (inr identification, w') =>
            (ok {| status_code := 200;
                   body := JDict [("user_id", JStr user_id);
                                  ("metadata", identification)] |}, w')
        end
    end.
Proof.
  unfold identify_comic, try_except, bind, ret.
  destruct (load_image_as_pillow image w) as [[e|pil] w1]; [done|].
  by destruct (analyze_comic_cover pil w1) as [[e|v] w'].
Qed.

(** C4, as the code has it.  [load_image_as_pillow] raises exactly when
    [Image.open] rejects the upload, or the upload opens in a mode that
    is neither RGB nor L and its raster cannot be converted.  What it
    raises is then a [ValueError] that wraps the failure underneath; no
    request has gone out, and [identify_comic] answers 500 from that
    very state: [analyze_comic_cover] is not entered.  An upload that
    opens in mode RGB or L is returned as opened, whatever state its
    pixel data is in: if that data cannot be written out,
    [analyze_comic_cover] is entered and fails at the PNG step, before
    any request, and the endpoint answers 500 with that failure as it
    is, not a [ValueError]. *)
Theorem load_failure_stops_before_vision data w :
  (is_ok (load_image_as_pillow data w).1 = false
   <-> (exists e0, Image_open data = inl e0)
       \/ (exists src e0,
              Image_open data = inr src
              /\ str_in (mode src) ["RGB"; "L"] = false
              /\ im_convert (im src) (mode src) "RGB" = inl e0))
  /\ (forall e w',
        load_image_as_pillow data w = (inl e, w') ->
        exn_class e = "ValueError"
        /\ (exists e0, e = value_error e0)
        /\ calls w' = calls w
        /\ forall user_id,
             identify_comic data user_id w = (ok (identification_error e), w'))
  /\ (forall src,
        Image_open data = inr src ->
        str_in (mode src) ["RGB"; "L"] = true ->
        load_image_as_pillow data w = (ok (length (heap w)), grown w [src])
        /\ forall e,
             Image_save src "PNG" None = inl e ->
             analyze_comic_cover (length (heap w)) (grown w [src])
             = (inl e, grown w [src])
             /\ calls (grown w [src]) = calls w
             /\ forall user_id,
                  identify_comic data user_id w
                  = (ok (identification_error e), grown w [src])).
Proof.
  split; [|split].
  - destruct (Image_open data) as [e0|src] eqn:Hopen.
    { rewrite (load_open_fails _ _ _ Hopen). split; [eauto|done]. }
    destruct (str_in (mode src) ["RGB"; "L"]) eqn:Hmode.
    { rewrite (load_supported_mode _ _ _ Hopen Hmode). split; [done|].
      intros [(e0 & [=])|(src' & e0 & [= <-] & Hmode' & _)]. congruence. }
    rewrite (load_other_mode _ _ _ Hopen Hmode).
    destruct (im_convert (im src) (mode src) "RGB") as [e0|px] eqn:Hpx.
    + split; [|done]. intros _. right. by exists src, e0.
    + split; [done|].
      intros [(e0 & [=])|(src' & e0 & [= <-] & _ & Hpx')]. congruence.
  - intros e w' Hload.
    assert ((exists e0, e = value_error e0) /\ calls w' = calls w)
      as [[e0 ->] Hcalls].
    { destruct (Image_open data) as [e0|src] eqn:Hopen.
      - rewrite (load_open_fails _ _ _ Hopen) in Hload.
        injection Hload as <- <-. eauto.
      - destruct (str_in (mode src) ["RGB"; "L"]) eqn:Hmode.
        + by rewrite (load_supported_mode _ _ _ Hopen Hmode) in Hload.
        + rewrite (load_other_mode _ _ _ Hopen Hmode) in Hload.
          destruct (im_convert _ _ _) as [e0|px]; [|done].
          injection Hload as <- <-. eauto. }
    split; [done|]. split; [eauto|]. split; [done|].
    intros user_id. by rewrite identify_comic_eq, Hload.
  - intros src Hopen Hmode.
    pose proof (load_supported_mode _ w _ Hopen Hmode) as Hload.
    split; [done|]. intros e Hsave.
    assert (analyze_comic_cover (length (heap w)) (grown w [src])
            = (inl e, grown w [src])) as Hrun.
    { rewrite analyze_comic_cover_eq. unfold save. unfold_monad.
      cbn [grown heap]. by rewrite lookup_fresh, Hsave. }
    split; [done|]. split; [done|].
    intros user_id. rewrite identify_comic_eq, Hload.
    unfold ok at 1. cbv beta iota. by rewrite Hrun.
Qed.

Lemma pipeline_failure_raises image w e w' :
  pipeline_failure image w e w' ->
  load_image_as_pillow image w = (inl e, w')
  \/ exists pil w1,
       load_image_as_pillow image w = (inr pil, w1)
       /\ analyze_comic_cover pil w1 = (inl e, w').
Proof.
  induction 1 as [e w' Hload
                 |pil w1 e w' Hload Hsave
                 |pil w1 png w2 e Hload Hsave Hcall
                 |pil w1 png w2 resp e Hload Hsave Hcall Hfirst
                 |pil w1 png w2 resp reply e Hload Hsave Hcall Hfirst Hparse];
    [by left|right; exists pil, w1; split; [done|]..];
    rewrite analyze_comic_cover_eq, Hsave; [done|cbn zeta..].
  - by rewrite Hcall.
  - by rewrite Hcall, Hfirst.
  - by rewrite Hcall, Hfirst, Hparse.
Qed.

(** C2.  Whichever step of the pipeline raises (loading the upload,
    writing the PNG, the outbound call, picking the first choice,
    parsing the reply), [identify_comic] answers with status 500 and
    the body [{"detail": "Identification error: " + str(e)}], where [e]
    is the exception that step raised. *)
Theorem identify_comic_failure image user_id w e w' :
  pipeline_failure image w e w' ->
  identify_comic image user_id w =
    (ok {| status_code := 500;
           body := JDict [("detail",
                           JStr ("Identification error: " +:+ exn_str e))] |},
     w').
Proof.
  intros [Hload|(pil & w1 & Hload & Hvision)]%pipeline_failure_raises;
    rewrite identify_comic_eq, Hload; [done|].
  by rewrite Hvision.
Qed.

(** The endpoint always answers: with 200, or with 500 for one of the
    failures listed in [pipeline_failure]. *)
Lemma identify_comic_answers image user_id w :
  exists answer w',
    identify_comic image user_id w = (ok answer, w')
    /\ (status_code answer = 200%Z
        \/ exists e, pipeline_failure image w e w'
                     /\ answer = identification_error e).
Proof.
  rewrite identify_comic_eq.
  destruct (load_image_as_pillow image w) as [[e|pil] w1] eqn:Hload.
  { eexists _, _. split; [done|]. right. exists e. split; [|done].
    by apply decode_failure. }
  rewrite analyze_comic_cover_eq.
  destruct (save pil "PNG" None w1) as [[e|png] w2] eqn:Hsave.
  { eexists _, _. split; [done|]. right. exists e. split; [|done].
    by eapply encode_failure. }
  cbn zeta.
  destruct (hosted_model _ _) as [e|resp] eqn:Hcall.
  { eexists _, _. split; [done|]. right. exists e. split; [|done].
    by eapply transport_failure. }
  destruct (first_content resp) as [e|reply] eqn:Hfirst.
  { eexists _, _. split; [done|]. right. exists e. split; [|done].
    by eapply empty_completion. }
  destruct (json_loads reply) as [e|identification] eqn:Hparse.
  - eexists _, _. split; [done|]. right. exists e. split; [|done].
    by eapply parse_failure.
  - eexists _, _. split; [done|]. by left.
Qed.

Lemma spider_man_reply_parses :
  json_loads (Some spider_man_reply) = ok spider_man_metadata.
Proof. vm_compute. reflexivity. Qed.

(** C1.  When the upload loads, is written out as PNG, and the hosted
    model answers the request with the text
    [{"title": "Amazing Spider-Man", "issue": "1"}], [identify_comic]
    answers with status 200, with [metadata] the object that text
    denotes and [user_id] the submitted one. *)
Theorem identify_comic_spider_man image user_id w pil w1 png w2 resp :
  load_image_as_pillow image w = (inr pil, w1) ->
  save pil "PNG" None w1 = (inr png, w2) ->
  hosted_model (calls w2) (vision_request (b64encode png)) = inr resp ->
  first_content resp = ok (Some spider_man_reply) ->
  exists answer w' metadata,
    identify_comic image user_id w = (ok answer, w')
    /\ status_code answer = 200%Z
    /\ json_loads (Some spider_man_reply) = ok metadata
    /\ metadata = JDict [("title", JStr "Amazing Spider-Man");
                         ("issue", JStr "1")]
    /\ field "metadata" (body answer) = Some metadata
    /\ field "user_id" (body answer) = Some (JStr user_id).
Proof.
  intros Hload Hsave Hcall Hfirst.
  eexists _, _, _.
  rewrite identify_comic_eq, Hload, analyze_comic_cover_eq, Hsave.
  cbn zeta. rewrite Hcall, Hfirst, spider_man_reply_parses.
  repeat split.
Qed.

(** ** [Image.thumbnail] *)

Lemma round_aspect_bounds number key (b : Z) :
  (number <= inject_Z b)%Q -> (1 <= b)%Z ->
  (1 <= Thumbnail.round_aspect number key <= b)%Z.
Proof.
  intros Hnum Hb. unfold Thumbnail.round_aspect.
  pose proof (Qle_floor_ceiling number) as Hfc. rewrite <- Zle_Qle in Hfc.
  pose proof (Qceiling_resp_le _ _ Hnum) as Hc. rewrite Qceiling_Z in Hc.
  destruct (Qle_bool _ _); lia.
Qed.

Lemma Qdiv_le_mult a b c : (0 < c)%Q -> (a <= b / c)%Q -> (c * a <= b)%Q.
Proof.
  intros Hc Hab.
  assert (Hne : ~ (c == 0)%Q) by (intros Heq; rewrite Heq in Hc; by apply Qlt_irrefl in Hc).
  rewrite <- (Qmult_div_r b c Hne). by apply Qmult_le_l.
Qed.

Lemma Qdiv_lt_mult a b c : (0 < c)%Q -> (b / c < a)%Q -> (b < c * a)%Q.
Proof.
  intros Hc Hab.
  assert (Hne : ~ (c == 0)%Q) by (intros Heq; rewrite Heq in Hc; by apply Qlt_irrefl in Hc).
  rewrite <- (Qmult_div_r b c Hne) at 1. by apply Qmult_lt_l.
Qed.

Lemma inject_Z_pos (z : Z) : (1 <= z)%Z -> (0 < inject_Z z)%Q.
Proof. intros Hz. change 0%Q with (inject_Z 0). rewrite <- Zlt_Qlt. lia. Qed.

(** An image that fits is left alone. *)
Lemma preserve_aspect_ratio_fits (width height x y : Z) :
  (width <= x)%Z -> (height <= y)%Z ->
  Thumbnail.preserve_aspect_ratio (width, height) (x, y) = ok None.
Proof.
  intros Hw Hh. unfold Thumbnail.preserve_aspect_ratio.
  assert ((x >=? width)%Z = true) as -> by lia.
  assert ((y >=? height)%Z = true) as -> by lia.
  reflexivity.
Qed.

(** For a bound of at least one pixel each way, the size settled on
    lies within the bound. *)
Lemma preserve_aspect_ratio_within (self_size : Z * Z) (x y x' y' : Z) :
  (1 <= x)%Z -> (1 <= y)%Z ->
  Thumbnail.preserve_aspect_ratio self_size (x, y) = ok (Some (x', y')) ->
  (1 <= x' <= x)%Z /\ (1 <= y' <= y)%Z.
Proof.
  intros Hx Hy. destruct self_size as [width height].
  unfold Thumbnail.preserve_aspect_ratio, Thumbnail.zero_division.
  destruct ((x >=? width)%Z && (y >=? height)%Z); [done|].
  destruct (height =? 0)%Z; [done|].
  destruct (y =? 0)%Z; [done|].
  set (aspect := (inject_Z width / inject_Z height)%Q).
  pose proof (inject_Z_pos _ Hx) as Hxq.
  pose proof (inject_Z_pos _ Hy) as Hyq.
  destruct (Qle_bool aspect (inject_Z x / inject_Z y)) eqn:Hcmp.
  - apply Qle_bool_iff in Hcmp. intros [= <- <-]. split; [|lia].
    apply round_aspect_bounds; [|done]. by apply Qdiv_le_mult.
  - assert (inject_Z x / inject_Z y < aspect)%Q as Hlt.
    { apply Qnot_le_lt. intros Hle. apply Qle_bool_iff in Hle. congruence. }
    assert (0 < aspect)%Q as Hpos.
    { eapply Qlt_trans; [|exact Hlt]. by apply Qlt_shift_div_l; [|rewrite Qmult_0_l]. }
    destruct (Qeq_bool aspect 0); [done|].
    intros [= <- <-]. split; [lia|].
    apply round_aspect_bounds; [|done].
    apply Qle_shift_div_r; [done|]. apply Qlt_le_weak.
    by apply Qdiv_lt_mult.
Qed.

Lemma thumbnail_eq self max_size w img :
  heap w !! self = Some img ->
  thumbnail self max_size w =
    match Thumbnail.preserve_aspect_ratio (size img) max_size with
    | inl e => (inl e, w)
    | inr None => (ok tt, w)
    | inr (Some final_size) =>
        if bool_decide (size img = final_size) then (ok tt, w)
        else
          match im_resize (im img) final_size with
          | inl e => (inl e, w)
          | inr px =>
              (ok tt,
               {| heap := <[self := {| mode := mode img; size := final_size;
                                       format := format img; im := px |}]> (heap w);
                  calls := calls w |})
          end
    end.
Proof.
  intros Hself. unfold thumbnail. unfold_monad. rewrite Hself.
  destruct (Thumbnail.preserve_aspect_ratio _ _) as [e|[final_size|]]; [done| |done].
  destruct (bool_decide _); [done|].
  by destruct (im_resize _ _).
Qed.

Lemma resize_image_eq image max_size w :
  resize_image image max_size w =
    match thumbnail image max_size w with
    | (inl e, w') => (inl e, w')
    | (inr _, w') => (ok image, w')
    end.
Proof.
  unfold resize_image, bind, ret.
  by destruct (thumbnail image max_size w) as [[e|[]] w'].
Qed.

Lemma thumbnail_dangling self max_size w :
  heap w !! self = None -> is_ok (thumbnail self max_size w).1 = false.
Proof. intros Hself. unfold thumbnail. unfold_monad. by rewrite Hself. Qed.

(** C9.  [resize_image] leaves an image that is within the bound as it
    is (the whole store is unchanged); and for a bound of at least one
    pixel each way, once [resize_image] has returned, applying it again
    to what it returned changes nothing. *)
Theorem resize_image_never_enlarges_idempotent image max_size w :
  (forall img,
     heap w !! image = Some img ->
     ((size img).1 <= max_size.1)%Z -> ((size img).2 <= max_size.2)%Z ->
     resize_image image max_size w = (ok image, w))
  /\ ((1 <= max_size.1)%Z -> (1 <= max_size.2)%Z ->
      forall image' w',
        resize_image image max_size w = (inr image', w') ->
        resize_image image' max_size w' = (inr image', w')).
Proof.
  destruct max_size as [x y]. cbn [fst snd]. split.
  - intros img Himg Hw Hh.
    rewrite resize_image_eq, (thumbnail_eq _ _ _ _ Himg).
    destruct (size img) as [width height].
    by rewrite preserve_aspect_ratio_fits.
  - intros Hx Hy image' w'.
    rewrite resize_image_eq.
    destruct (heap w !! image) as [img|] eqn:Himg; cycle 1.
    { pose proof (thumbnail_dangling image (x, y) w Himg) as Hbad.
      by destruct (thumbnail image (x, y) w) as [[e|[]] w1]. }
    rewrite (thumbnail_eq _ _ _ _ Himg).
    assert (Hsame : forall w0, w0 = w -> thumbnail image (x, y) w = (ok tt, w0) ->
              resize_image image (x, y) w0 = (inr image, w0)).
    { intros w0 -> Hth. by rewrite resize_image_eq, Hth. }
    destruct (Thumbnail.preserve_aspect_ratio (size img) (x, y))
      as [e|[[x' y']|]] eqn:Hratio; [done| |].
    + destruct (bool_decide (size img = (x', y'))) eqn:Hsize.
      * intros [= <- <-]. apply Hsame; [done|].
        by rewrite (thumbnail_eq _ _ _ _ Himg), Hratio, Hsize.
      * destruct (im_resize (im img) (x', y')) as [e|px] eqn:Hpx; [done|].
        intros [= <- <-].
        destruct (preserve_aspect_ratio_within _ _ _ _ _ Hx Hy Hratio) as [Hx' Hy'].
        rewrite resize_image_eq.
        erewrite thumbnail_eq; cycle 1.
        { cbn [heap]. apply list_lookup_insert_eq. by eapply lookup_lt_Some. }
        cbn [size]. rewrite preserve_aspect_ratio_fits; [done|lia..].
    + intros [= <- <-]. apply Hsame; [done|].
      by rewrite (thumbnail_eq _ _ _ _ Himg), Hratio.
Qed.

(** ** [resize_image] and [optimize_image_for_api] in the store *)

(** [thumbnail] either leaves the world alone or overwrites its
    receiver, and the latter only when the receiver exceeds the bound. *)
Lemma thumbnail_in_place self max_size w out w' :
  thumbnail self max_size w = (out, w') ->
  w' = w
  \/ exists img img',
       heap w !! self = Some img
       /\ ((size img).1 > max_size.1 \/ (size img).2 > max_size.2)%Z
       /\ size img' <> size img
       /\ w' = {| heap := <[self := img']> (heap w); calls := calls w |}.
Proof.
  destruct (heap w !! self) as [img|] eqn:Hself; cycle 1.
  { unfold thumbnail. unfold_monad. rewrite Hself. intros [= _ <-]. by left. }
  rewrite (thumbnail_eq _ _ _ _ Hself).
  destruct max_size as [x y], (size img) as [width height] eqn:Hsize.
  destruct ((x >=? width)%Z && (y >=? height)%Z) eqn:Hfits.
  { rewrite preserve_aspect_ratio_fits by lia. intros [= _ <-]. by left. }
  destruct (Thumbnail.preserve_aspect_ratio _ _) as [e|[final_size|]];
    [intros [= _ <-]; by left| |intros [= _ <-]; by left].
  case_bool_decide as Hfinal; [intros [= _ <-]; by left|].
  destruct (im_resize _ _) as [e|px]; [intros [= _ <-]; by left|].
  intros [= _ <-]. right.
  exists img, {| mode := mode img; size := final_size;
                 format := format img; im := px |}.
  rewrite Hsize. cbn [fst snd size].
  split; [done|]. split; [lia|]. split; [congruence|done].
Qed.

Lemma resize_image_in_place image max_size w out w' :
  resize_image image max_size w = (out, w') ->
  (forall image', out = inr image' -> image' = image)
  /\ (w' = w
      \/ exists img img',
           heap w !! image = Some img
           /\ ((size img).1 > max_size.1 \/ (size img).2 > max_size.2)%Z
           /\ size img' <> size img
           /\ w' = {| heap := <[image := img']> (heap w); calls := calls w |}).
Proof.
  rewrite resize_image_eq.
  destruct (thumbnail image max_size w) as [[e|[]] w1] eqn:Hth;
    intros [= <- <-]; (split; [intros image'; unfold ok; congruence|]);
    exact (thumbnail_in_place _ _ _ _ _ Hth).
Qed.

(** [optimize_image_for_api] resizes in place when, and only when, the
    image exceeds the bounding box, and otherwise only allocates. *)
Lemma optimize_image_for_api_world image max_size quality w out w' :
  optimize_image_for_api image max_size quality w = (out, w') ->
  exists w1 new,
    w' = grown w1 new
    /\ (w1 = w
        \/ exists img img',
             heap w !! image = Some img
             /\ ((size img).1 > max_size.1 \/ (size img).2 > max_size.2)%Z
             /\ size img' <> size img
             /\ w1 = {| heap := <[image := img']> (heap w); calls := calls w |}).
Proof.
  unfold optimize_image_for_api, bind at 1.
  destruct (deref image w) as [[e|img] w0] eqn:Hderef.
  { intros [= _ <-]. exists w, []. rewrite grown_nil.
    unfold deref in Hderef. destruct (heap w !! image); simplify_eq; auto. }
  assert (w0 = w) as ->.
  { unfold deref in Hderef. by destruct (heap w !! image); simplify_eq. }
  unfold bind at 1.
  set (resized := (if ((size img).1 >? max_size.1)%Z || ((size img).2 >? max_size.2)%Z
                   then resize_image image max_size else ret image) w).
  assert (forall o w1, resized = (o, w1) ->
            (forall image', o = inr image' -> image' = image)
            /\ (w1 = w
                \/ exists img img',
                     heap w !! image = Some img
                     /\ ((size img).1 > max_size.1 \/ (size img).2 > max_size.2)%Z
                     /\ size img' <> size img
                     /\ w1 = {| heap := <[image := img']> (heap w);
                                calls := calls w |})) as Hres.
  { subst resized. intros o w1. destruct (_ || _).
    - apply resize_image_in_place.
    - intros [= <- <-]. split; [by intros ? [= <-]|by left]. }
  destruct resized as [[e|image1] w1] eqn:Hresized.
  { intros [= _ <-]. exists w1, []. rewrite grown_nil.
    split; [done|]. by apply (Hres _ _ eq_refl). }
  destruct (Hres _ _ eq_refl) as [Hsame Hw1]. clear Hres.
  rewrite (Hsame _ eq_refl).
  unfold bind at 1.
  destruct (deref image w1) as [[e|img1] w2] eqn:Hderef1.
  { intros [= _ <-]. exists w1, []. rewrite grown_nil. split; [|done].
    unfold deref in Hderef1. by destruct (heap w1 !! image); simplify_eq. }
  assert (w2 = w1) as ->.
  { unfold deref in Hderef1. by destruct (heap w1 !! image); simplify_eq. }
  unfold bind at 1.
  destruct ((if negb (str_in (mode img1) ["RGB"; "L"])
             then convert image "RGB" else ret image) w1)
    as [[e|image2] w3] eqn:Hconv.
  - intros [= _ <-]. exists w1.
    destruct (negb _); [|done].
    destruct (convert_allocates _ _ _ _ _ Hconv) as [new ->]. eauto.
  - intros Hsave%save_reads_only. subst w'. exists w1.
    destruct (negb _).
    + destruct (convert_allocates _ _ _ _ _ Hconv) as [new ->]. eauto.
    + injection Hconv as _ <-. exists []. by rewrite grown_nil.
Qed.

Lemma thumbnail_2000x1000 :
  Thumbnail.preserve_aspect_ratio (2000, 1000)%Z (1024, 1024)%Z
  = ok (Some (1024, 512)%Z).
Proof. reflexivity. Qed.

(** C6.  For an image of 2000x1000 pixels, [resize_image] with the
    bound 1024x1024 returns exactly when the resampler does, and the
    image it returns is 1024x512: at most 1024 wide, at most 1024 high,
    with the ratio of width to height unchanged.  In
    [optimize_image_for_api] the caller's image can only have been
    resized if its width or height exceeded the bounding box; when it
    does not, the function is the conversion and encoding steps alone. *)
Theorem resize_within_bounding_box w image img :
  heap w !! image = Some img ->
  (size img = (2000, 1000)%Z ->
   is_ok (resize_image image (1024, 1024)%Z w).1
     = is_ok (im_resize (im img) (1024, 512)%Z)
   /\ forall image' w',
        resize_image image (1024, 1024)%Z w = (inr image', w') ->
        exists img',
          heap w' !! image' = Some img'
          /\ size img' = (1024, 512)%Z
          /\ ((size img').1 <= 1024)%Z
          /\ ((size img').2 <= 1024)%Z
          /\ ((size img').1 * (size img).2 = (size img').2 * (size img).1)%Z)
  /\ (forall max_size quality out w',
        optimize_image_for_api image max_size quality w = (out, w') ->
        heap w' !! image <> Some img ->
        ((size img).1 > max_size.1 \/ (size img).2 > max_size.2)%Z)
  /\ (forall max_size quality,
        ((size img).1 <= max_size.1)%Z -> ((size img).2 <= max_size.2)%Z ->
        optimize_image_for_api image max_size quality w
        = bind (if negb (str_in (mode img) ["RGB"; "L"])
                then convert image "RGB" else ret image)
               (fun image => save image "JPEG" (Some quality)) w).
Proof.
  intros Himg. split; [|split].
  - intros Hsize.
    rewrite resize_image_eq, (thumbnail_eq _ _ _ _ Himg), Hsize, thumbnail_2000x1000.
    unfold ok. cbv iota beta.
    rewrite bool_decide_eq_false_2 by discriminate.
    destruct (im_resize (im img) (1024, 512)%Z) as [e|px]; [done|].
    split; [done|]. intros image' w' [= <- <-]. eexists. cbn [heap]. split.
    + apply list_lookup_insert_eq. by eapply lookup_lt_Some.
    + done.
  - intros max_size quality out w' Hopt Hchanged.
    destruct (optimize_image_for_api_world _ _ _ _ _ _ Hopt)
      as (w1 & new & -> & [->|(img0 & img' & Himg0 & Hexceeds & _)]).
    + exfalso. apply Hchanged. cbn [grown heap]. by apply lookup_app_l_Some.
    + by simplify_eq.
  - intros max_size quality Hwidth Hheight.
    unfold optimize_image_for_api, bind at 1 2 3.
    rewrite (deref_some _ _ _ Himg). unfold ok at 1. cbv iota beta.
    assert (((size img).1 >? max_size.1)%Z || ((size img).2 >? max_size.2)%Z = false)
      as -> by lia.
    unfold ret at 1, ok at 1. cbv beta iota.
    by rewrite (deref_some _ _ _ Himg).
Qed.

Lemma preserve_aspect_ratio_none self_size max_size :
  Thumbnail.preserve_aspect_ratio self_size max_size = ok None ->
  (self_size.1 <= max_size.1)%Z /\ (self_size.2 <= max_size.2)%Z.
Proof.
  destruct self_size as [width height], max_size as [x y].
  unfold Thumbnail.preserve_aspect_ratio, Thumbnail.zero_division.
  destruct ((x >=? width)%Z && (y >=? height)%Z) eqn:Hfits; [cbn; lia|].
  destruct (height =? 0)%Z; [done|]. destruct (y =? 0)%Z; [done|].
  destruct (Qle_bool _ _); [done|]. by destruct (Qeq_bool _ _).
Qed.





End Properties.

(** ** [health_check] *)

(** C8.  [openai_configured] is false when [OPENAI_API_KEY] is unset and
    true when it is set to a non-empty value; and the health response is
    the same whatever non-empty value the variable holds, so nothing of
    the credential can be read off it. *)
Theorem health_check_openai_configured (p : process) :
  (environ p !! "OPENAI_API_KEY" = None ->
   field "openai_configured" (health_check p) = Some (JBool false))
  /\ (forall key,
        environ p !! "OPENAI_API_KEY" = Some key -> key <> "" ->
        field "openai_configured" (health_check p) = Some (JBool true))
  /\ (forall key1 key2,
        key1 <> "" -> key2 <> "" ->
        health_check (setenv p "OPENAI_API_KEY" key1)
        = health_check (setenv p "OPENAI_API_KEY" key2)).
Proof.
  split; [|split].
  - intros Hunset. unfold health_check, getenv. rewrite Hunset. reflexivity.
  - intros key Hset Hne. unfold health_check, getenv. rewrite Hset.
    cbn [truthy]. apply String.eqb_neq in Hne. rewrite Hne. reflexivity.
  - intros key1 key2 Hne1%String.eqb_neq Hne2%String.eqb_neq.
    unfold health_check, getenv, getenv_default, setenv. cbn [environ routes sys_version].
    rewrite !lookup_insert_eq, !lookup_insert_ne by done.
    cbn [truthy]. by rewrite Hne1, Hne2.
Qed.

(** * The properties on concrete inputs *)

Module Runs.

Import Toy.

(** C1 on the toy libraries, the hosted model answering with the
    Spider-Man text. *)
Lemma identify_comic_spider_man_run :
  first_content
    {| choices := [ {| message_content := Some spider_man_reply |} ] |}
  = ok (Some spider_man_reply)
  /\ exists answer w' metadata,
       identify_comic (ext := externals (says spider_man_reply))
         upload "reader-7" shelf = (ok answer, w')
       /\ status_code answer = 200%Z
       /\ json_loads (Some spider_man_reply) = ok metadata
       /\ metadata = JDict [("title", JStr "Amazing Spider-Man");
                            ("issue", JStr "1")]
       /\ field "metadata" (body answer) = Some metadata
       /\ field "user_id" (body answer) = Some (JStr "reader-7").
Proof.
  split; [reflexivity|].
  eapply (identify_comic_spider_man (ext := externals (says spider_man_reply))
            upload "reader-7" shelf);
    vm_compute; reflexivity.
Defined.

(** C2 on a reply wrapped in a Markdown fence: the parser rejects the
    first character. *)
Lemma identify_comic_failure_run :
  identify_comic (ext := externals (says fenced_reply)) upload "reader-7" shelf
  = (ok {| status_code := 500;
           body := JDict [("detail",
                           JStr "Identification error: Expecting value: line 1 column 1 (char 0)")] |},
     {| heap := [cover; {| mode := "RGB"; size := (2000, 1000)%Z;
                          format := Some "PNG"; im := true |}];
        calls := [vision_request ""] |}).
Proof.
  apply (identify_comic_failure (ext := externals (says fenced_reply))
           upload "reader-7" shelf
           (Exn "JSONDecodeError" "Expecting value: line 1 column 1 (char 0)")).
  apply (parse_failure (ext := externals (says fenced_reply)) upload shelf
           1 (grown (ext := externals (says fenced_reply)) shelf
                [{| mode := "RGB"; size := (2000, 1000)%Z;
                    format := Some "PNG"; im := true |}])
           [] (grown (ext := externals (says fenced_reply)) shelf
                [{| mode := "RGB"; size := (2000, 1000)%Z;
                    format := Some "PNG"; im := true |}])
           {| choices := [ {| message_content := Some fenced_reply |} ] |}
           (Some fenced_reply));
    vm_compute; reflexivity.
Defined.

(** C3 on a palette-based upload. *)
Lemma load_image_as_pillow_mode_run :
  Image_open (Externals := externals unreachable) palette_upload
  = inr {| mode := "P"; size := (2000, 1000)%Z; format := Some "PNG"; im := true |}
  /\ is_ok (load_image_as_pillow (ext := externals unreachable) palette_upload shelf).1
     = true
  /\ forall r w',
       load_image_as_pillow (ext := externals unreachable) palette_upload shelf
       = (inr r, w') ->
       exists img,
         heap w' !! r = Some img
         /\ (mode img = "RGB" \/ mode img = "L")
         /\ ("P" <> "RGB" -> "P" <> "L" -> mode img = "RGB").
Proof.
  split; [reflexivity|].
  apply (load_image_as_pillow_mode (ext := externals unreachable)
           palette_upload shelf
           {| mode := "P"; size := (2000, 1000)%Z; format := Some "PNG"; im := true |}).
  reflexivity.
Defined.

(** C4, amended, on the empty upload, on a palette upload whose data is
    damaged, and on a full-colour upload whose data is damaged. *)
Lemma load_failure_stops_before_vision_run :
  is_ok (load_image_as_pillow (ext := externals (says spider_man_reply)) [] shelf).1
  = false
  /\ identify_comic (ext := externals (says spider_man_reply)) [] "reader-7" shelf
     = (ok {| status_code := 500;
              body := JDict [("detail",
                              JStr "Identification error: Failed to load image: cannot identify image file")] |},
        shelf)
  /\ is_ok (load_image_as_pillow (ext := externals (says spider_man_reply))
              damaged_palette_upload shelf).1
     = false
  /\ identify_comic (ext := externals (says spider_man_reply))
       damaged_palette_upload "reader-7" shelf
     = (ok {| status_code := 500;
              body := JDict [("detail",
                              JStr "Identification error: Failed to load image: image file is truncated")] |},
        {| heap := [cover; {| mode := "P"; size := (2000, 1000)%Z;
                             format := Some "PNG"; im := false |}];
           calls := [] |})
  /\ load_image_as_pillow (ext := externals (says spider_man_reply))
       damaged_upload shelf
     = (ok 1, {| heap := [cover; {| mode := "RGB"; size := (2000, 1000)%Z;
                                   format := Some "PNG"; im := false |}];
                 calls := [] |})
  /\ identify_comic (ext := externals (says spider_man_reply))
       damaged_upload "reader-7" shelf
     = (ok {| status_code := 500;
              body := JDict [("detail",
                              JStr "Identification error: image file is truncated")] |},
        {| heap := [cover; {| mode := "RGB"; size := (2000, 1000)%Z;
                             format := Some "PNG"; im := false |}];
           calls := [] |}).
Proof.
  destruct (load_failure_stops_before_vision
              (ext := externals (says spider_man_reply)) [] shelf)
    as (Hwhen & Hstop & _).
  split.
  { apply Hwhen. left.
    by exists (Exn "UnidentifiedImageError" "cannot identify image file"). }
  split.
  { apply (Hstop (Exn "ValueError" "Failed to load image: cannot identify image file")
             shelf); reflexivity. }
  destruct (load_failure_stops_before_vision
              (ext := externals (says spider_man_reply)) damaged_palette_upload shelf)
    as (Hwhen' & Hstop' & _).
  split.
  { apply Hwhen'. right.
    by exists {| mode := "P"; size := (2000, 1000)%Z;
                 format := Some "PNG"; im := false |},
              (Exn "OSError" "image file is truncated"). }
  split.
  { apply (Hstop' (Exn "ValueError" "Failed to load image: image file is truncated"));
      reflexivity. }
  destruct (load_failure_stops_before_vision
              (ext := externals (says spider_man_reply)) damaged_upload shelf)
    as (_ & _ & Hloads).
  destruct (Hloads {| mode := "RGB"; size := (2000, 1000)%Z;
                      format := Some "PNG"; im := false |} eq_refl eq_refl)
    as [Hload Hsave].
  split; [exact Hload|].
  destruct (Hsave (Exn "OSError" "image file is truncated") eq_refl)
    as (_ & _ & Hanswer).
  exact (Hanswer "reader-7").
Defined.

(** C4 as the spec has it fails on an upload whose header reads as a
    full-colour image and whose data is damaged: no operation can decode
    it, yet [load_image_as_pillow] returns it without an error, and
    [analyze_comic_cover] is entered, where the PNG step raises
    [OSError]. *)
Lemma truncated_upload_loads :
  let src := {| mode := "RGB"; size := (2000, 1000)%Z;
                format := Some "PNG"; im := false |} in
  let w1 := {| heap := [cover; src]; calls := [] |} in
  Image_open (Externals := externals (says spider_man_reply)) damaged_upload
  = inr src
  /\ (forall to final_size fmt quality,
        im_convert (Externals := externals (says spider_man_reply))
          (im src) (mode src) to = truncated
        /\ im_resize (Externals := externals (says spider_man_reply))
             (im src) final_size = truncated
        /\ Image_save (Externals := externals (says spider_man_reply))
             src fmt quality = truncated)
  /\ load_image_as_pillow (ext := externals (says spider_man_reply))
       damaged_upload shelf
     = (ok 1, w1)
  /\ analyze_comic_cover (ext := externals (says spider_man_reply)) 1 w1
     = (inl (Exn "OSError" "image file is truncated"), w1)
  /\ identify_comic (ext := externals (says spider_man_reply))
       damaged_upload "reader-7" shelf
     = (ok {| status_code := 500;
              body := JDict [("detail",
                              JStr "Identification error: image file is truncated")] |},
        w1).
Proof. vm_compute. repeat split. Qed.

(** C5 at a reply that is valid JSON but no object: the parser hands
    back the integer, and the endpoint answers 200 with it. *)
Lemma analyze_comic_cover_non_object_reply :
  json_loads (Some "42") = ok (JInt 42)
  /\ (analyze_comic_cover (ext := externals (says "42")) 0 shelf).1 = ok (JInt 42)
  /\ is_dict (JInt 42) = false
  /\ (identify_comic (ext := externals (says "42")) upload "reader-7" shelf).1
     = ok {| status_code := 200;
             body := JDict [("user_id", JStr "reader-7");
                            ("metadata", JInt 42)] |}.
Proof. vm_compute. repeat split. Qed.

(** C6 on the 2000x1000 cover. *)
Lemma resize_within_bounding_box_run :
  heap shelf !! 0 = Some cover
  /\ is_ok (resize_image (ext := externals unreachable) 0 (1024, 1024)%Z shelf).1 = true
  /\ (resize_image (ext := externals unreachable) 0 (1024, 1024)%Z shelf).1 = ok 0
  /\ size <$> heap (resize_image (ext := externals unreachable) 0 (1024, 1024)%Z shelf).2 !! 0
     = Some (1024, 512)%Z
  /\ heap (optimize_image_for_api (ext := externals unreachable)
             0 (1024, 1024)%Z 85 shelf).2 !! 0 <> Some cover
  /\ (2000 > 1024 \/ 1000 > 1024)%Z
  /\ optimize_image_for_api (ext := externals unreachable) 0 (2000, 1000)%Z 85 shelf
     = (ok [], shelf).
Proof.
  destruct (resize_within_bounding_box (ext := externals unreachable) shelf 0 cover)
    as (Hresize & Honly & Hfits); [reflexivity|].
  destruct (Hresize eq_refl) as [Hreturns Hsize].
  split; [reflexivity|]. split; [exact Hreturns|].
  split; [reflexivity|]. split; [reflexivity|].
  assert (heap (optimize_image_for_api (ext := externals unreachable)
                  0 (1024, 1024)%Z 85 shelf).2 !! 0 <> Some cover) as Hchanged
    by (vm_compute; discriminate).
  split; [exact Hchanged|].
  split; [exact (Honly (1024, 1024)%Z 85%Z _ _ eq_refl Hchanged)|].
  rewrite (Hfits (2000, 1000)%Z 85%Z); [reflexivity| |]; cbn; lia.
Defined.



(** C8 on a machine without the variable, and with it set. *)
Lemma health_check_openai_configured_run :
  field "openai_configured" (health_check machine) = Some (JBool false)
  /\ field "openai_configured"
       (health_check (setenv machine "OPENAI_API_KEY" "sk-proj-one"))
     = Some (JBool true)
  /\ health_check (setenv machine "OPENAI_API_KEY" "sk-proj-one")
     = health_check (setenv machine "OPENAI_API_KEY" "sk-proj-two").
Proof.
  split; [apply (health_check_openai_configured machine); reflexivity|].
  split.
  - apply (health_check_openai_configured
             (setenv machine "OPENAI_API_KEY" "sk-proj-one")) with "sk-proj-one";
      [reflexivity|discriminate].
  - apply (health_check_openai_configured machine); discriminate.
Defined.

(** C9 on the 2000x1000 cover: a bound it fits in, and the default
    bound applied twice. *)
Lemma resize_image_never_enlarges_idempotent_run :
  resize_image (ext := externals unreachable) 0 (2000, 1000)%Z shelf = (ok 0, shelf)
  /\ let once := resize_image (ext := externals unreachable) 0 default_max_size shelf in
     resize_image (ext := externals unreachable) 0 default_max_size once.2
     = (inr 0, once.2).
Proof.
  split.
  - apply (resize_image_never_enlarges_idempotent
             (ext := externals unreachable) 0 (2000, 1000)%Z shelf) with cover;
      [reflexivity|cbn; lia..].
  - apply (resize_image_never_enlarges_idempotent
             (ext := externals unreachable) 0 default_max_size shelf);
      [cbn; lia..|reflexivity].
Defined.

(** C10 on an image without a format, on the JPEG cover, on a converted
    copy of the cover, and on the image [load_image_as_pillow] makes of a
    palette upload. *)
Lemma validate_image_format_default_run :
  validate_image_format (ext := externals unreachable)
    {| mode := "RGB"; size := (2000, 1000)%Z; format := None; im := true |} None = false
  /\ validate_image_format (ext := externals unreachable) cover None = true
  /\ (exists img,
        heap (convert (ext := externals unreachable) 0 "L" shelf).2 !! 1 = Some img
        /\ format img = None
        /\ validate_image_format (ext := externals unreachable) img None = false)
  /\ exists img,
       heap (load_image_as_pillow (ext := externals unreachable)
               palette_upload shelf).2 !! 2 = Some img
       /\ validate_image_format (ext := externals unreachable) img None = false.
Proof.
  destruct (validate_image_format_default (ext := externals unreachable))
    as (Hnone & Hconvert & Hload & Hiff).
  split; [apply Hnone; reflexivity|].
  split; [apply Hiff; exists "JPEG"; split; [reflexivity|by left]|].
  split; [apply (Hconvert 0 "L" shelf 1 _); reflexivity|].
  apply (Hload palette_upload shelf
           {| mode := "P"; size := (2000, 1000)%Z; format := Some "PNG"; im := true |}
           2 _); reflexivity.
Defined.

End Runs.

(** * Further properties *)

(** ** The size [Image.thumbnail] settles on *)

Module ThumbnailFacts.

Import Thumbnail.

Local Open Scope Z_scope.

(** Comparing two ratios of positive integers is cross-multiplication. *)
Lemma ratio_le_cross (a b c d : Z) :
  1 <= b -> 1 <= d ->
  (inject_Z a / inject_Z b <= inject_Z c / inject_Z d)%Q <-> a * d <= c * b.
Proof.
  intros Hb Hd. destruct b as [|b|b]; [lia| |lia]. destruct d as [|d|d]; [lia| |lia].
  rewrite <- !Qmake_Qdiv. unfold Qle. cbn [Qnum Qden]. reflexivity.
Qed.

Lemma scaled_ratio (y w h : Z) :
  1 <= h -> (inject_Z y * (inject_Z w / inject_Z h) == inject_Z (y * w) / inject_Z h)%Q.
Proof.
  intros Hh. rewrite inject_Z_mult. field.
  intros Hzero. unfold Qeq in Hzero. cbn in Hzero. lia.
Qed.

Lemma divided_ratio (x w h : Z) :
  1 <= w -> 1 <= h ->
  (inject_Z x / (inject_Z w / inject_Z h) == inject_Z (x * h) / inject_Z w)%Q.
Proof.
  intros Hw Hh. rewrite inject_Z_mult. field.
  split; intros Hzero; unfold Qeq in Hzero; cbn in Hzero; lia.
Qed.

(** An integer against a ratio with a positive denominator. *)
Lemma int_le_ratio (a n d : Z) :
  1 <= d -> (inject_Z a <= inject_Z n / inject_Z d)%Q <-> a * d <= n.
Proof.
  intros Hd. destruct d as [|d|d]; [lia| |lia].
  rewrite <- Qmake_Qdiv. unfold Qle. cbn [Qnum Qden inject_Z]. lia.
Qed.

Lemma ratio_lt_int (a n d : Z) :
  1 <= d -> (inject_Z n / inject_Z d < inject_Z a)%Q <-> n < a * d.
Proof.
  intros Hd. destruct d as [|d|d]; [lia| |lia].
  rewrite <- Qmake_Qdiv. unfold Qlt. cbn [Qnum Qden inject_Z]. lia.
Qed.

Lemma int_lt_ratio (a n d : Z) :
  1 <= d -> (inject_Z a < inject_Z n / inject_Z d)%Q <-> a * d < n.
Proof.
  intros Hd. destruct d as [|d|d]; [lia| |lia].
  rewrite <- Qmake_Qdiv. unfold Qlt. cbn [Qnum Qden inject_Z]. lia.
Qed.

Lemma ratio_le_int (a n d : Z) :
  1 <= d -> (inject_Z n / inject_Z d <= inject_Z a)%Q <-> n <= a * d.
Proof.
  intros Hd. destruct d as [|d|d]; [lia| |lia].
  rewrite <- Qmake_Qdiv. unfold Qle. cbn [Qnum Qden inject_Z]. lia.
Qed.

(** [round_aspect] is one of the two integers next to its argument,
    unless that would be less than one. *)
Lemma round_aspect_near (n d : Z) key :
  0 <= n -> 1 <= d ->
  let r := round_aspect (inject_Z n / inject_Z d) key in
  1 <= r /\ (r - 1) * d <= n < (r + 1) * d.
Proof.
  intros Hn Hd r. subst r. unfold round_aspect.
  pose proof (Qfloor_le (inject_Z n / inject_Z d)) as Hfloor.
  apply (int_le_ratio _ _ _ Hd) in Hfloor.
  pose proof (Qlt_floor (inject_Z n / inject_Z d)) as Hfloor'.
  apply (ratio_lt_int _ _ _ Hd) in Hfloor'.
  pose proof (Qle_ceiling (inject_Z n / inject_Z d)) as Hceil.
  apply (ratio_le_int _ _ _ Hd) in Hceil.
  pose proof (Qceiling_lt (inject_Z n / inject_Z d)) as Hceil'.
  apply (int_lt_ratio _ _ _ Hd) in Hceil'.
  destruct (Qle_bool _ _); nia.
Qed.

Lemma round_aspect_proper number number' key :
  (number == number')%Q -> round_aspect number key = round_aspect number' key.
Proof. intros Heq. unfold round_aspect. by rewrite (Qfloor_comp _ _ Heq), (Qceiling_comp _ _ Heq). Qed.

(** What [preserve_aspect_ratio] settles on for an image of positive
    size that does not fit a bound of positive size: no division by zero;
    a size within both the bound and the image; one side on the bound and
    the other next to its proportional length. *)
Lemma preserve_aspect_ratio_reduces (width height x y : Z) :
  1 <= width -> 1 <= height -> 1 <= x -> 1 <= y ->
  x < width \/ y < height ->
  exists x' y',
    preserve_aspect_ratio (width, height) (x, y) = ok (Some (x', y'))
    /\ 1 <= x' <= Z.min x width
    /\ 1 <= y' <= Z.min y height
    /\ ((y' = y /\ (x' - 1) * height <= y * width < (x' + 1) * height)
        \/ (x' = x /\ (y' - 1) * width <= x * height < (y' + 1) * width)).
Proof.
  intros Hw Hh Hx Hy Hbig. unfold preserve_aspect_ratio.
  assert ((x >=? width) && (y >=? height) = false) as -> by lia.
  assert ((height =? 0) = false) as -> by lia.
  assert ((y =? 0) = false) as -> by lia.
  destruct (Qle_bool _ _) eqn:Hcmp.
  - apply Qle_bool_iff in Hcmp. apply (ratio_le_cross _ _ _ _ Hh Hy) in Hcmp.
    eexists _, y. split; [reflexivity|].
    rewrite (round_aspect_proper _ _ _ (scaled_ratio y width height Hh)).
    destruct (round_aspect_near (y * width) height
                (fun n => Qabs (inject_Z width / inject_Z height
                                - inject_Z n / inject_Z y)%Q)) as [Hone Hnear];
      [nia|done|].
    assert (y <= height) as Hyh by nia.
    split; [|split; [lia|by left]].
    split; [done|]. apply Z.min_glb.
    + apply round_aspect_bounds; [|done]. apply ratio_le_int; [done|nia].
    + apply round_aspect_bounds; [|done]. apply ratio_le_int; [done|nia].
  - assert (x * height < width * y) as Hlt.
    { apply Z.nle_gt. intros Hle.
      apply (proj2 (ratio_le_cross width height x y Hh Hy)) in Hle.
      apply Qle_bool_iff in Hle. congruence. }
    assert (Qeq_bool (inject_Z width / inject_Z height) 0 = false) as ->.
    { apply not_true_is_false. intros Hzero%Qeq_bool_iff.
      assert (inject_Z 1 <= inject_Z width / inject_Z height * inject_Z height)%Q as Hbad.
      { rewrite Qmult_comm, Qmult_div_r.
        - rewrite <- Zle_Qle. lia.
        - intros Hz. unfold Qeq in Hz. cbn in Hz. lia. }
      rewrite Hzero, Qmult_0_l in Hbad. by apply Qle_not_lt in Hbad. }
    eexists x, _. split; [reflexivity|].
    rewrite (round_aspect_proper _ _ _ (divided_ratio x width height Hw Hh)).
    destruct (round_aspect_near (x * height) width
                (fun n => if n =? 0 then 0%Q
                          else Qabs (inject_Z width / inject_Z height
                                     - inject_Z x / inject_Z n)%Q)) as [Hone Hnear];
      [nia|done|].
    assert (x <= width) as Hxw by nia.
    split; [lia|]. split; [|by right].
    split; [done|]. apply Z.min_glb.
    + apply round_aspect_bounds; [|done]. apply ratio_le_int; [done|nia].
    + apply round_aspect_bounds; [|done]. apply ratio_le_int; [done|nia].
Qed.

End ThumbnailFacts.

Section MoreProperties.

Context {ext : Externals}.

Implicit Types (w : world pixels) (img : Image pixels) (r : loc).

(** ** [resize_image] *)

(** What a successful [resize_image] leaves at the reference it was
    given: the same mode and format, and the size [thumbnail] settled on. *)
Lemma resize_image_result image max_size w img image' w' :
  heap w !! image = Some img ->
  resize_image image max_size w = (inr image', w') ->
  image' = image
  /\ exists img',
       heap w' !! image = Some img'
       /\ mode img' = mode img
       /\ format img' = format img
       /\ ((Thumbnail.preserve_aspect_ratio (size img) max_size = ok None /\ img' = img)
           \/ Thumbnail.preserve_aspect_ratio (size img) max_size = ok (Some (size img'))).
Proof.
  intros Himg. rewrite resize_image_eq, (thumbnail_eq _ _ _ _ Himg).
  destruct (Thumbnail.preserve_aspect_ratio (size img) max_size)
    as [e|[final_size|]] eqn:Hratio; [done| |].
  - case_bool_decide as Hsame.
    + intros [= <- <-]. split; [done|]. exists img.
      repeat split; [done|]. right. by rewrite Hsame.
    + destruct (im_resize (im img) final_size) as [e|px]; [done|].
      intros [= <- <-]. split; [done|]. eexists. cbn [heap]. split.
      { apply list_lookup_insert_eq. by eapply lookup_lt_Some. }
      repeat split. by right.
  - intros [= <- <-]. split; [done|]. exists img. repeat split; [done|]. by left.
Qed.

(** X1.  For an image and a bound of at least one pixel each way, what
    [resize_image] returns is at least one pixel each way and no wider and
    no higher than both the bound and the image it was given: resizing
    never enlarges, in either direction. *)
Theorem resize_image_shrinks image max_size w img image' w' :
  heap w !! image = Some img ->
  (1 <= (size img).1)%Z -> (1 <= (size img).2)%Z ->
  (1 <= max_size.1)%Z -> (1 <= max_size.2)%Z ->
  resize_image image max_size w = (inr image', w') ->
  exists img',
    heap w' !! image' = Some img'
    /\ (1 <= (size img').1 <= Z.min max_size.1 (size img).1)%Z
    /\ (1 <= (size img').2 <= Z.min max_size.2 (size img).2)%Z.
Proof.
  intros Himg Hw Hh Hx Hy Hrun.
  destruct (resize_image_result _ _ _ _ _ _ Himg Hrun)
    as (-> & img' & Himg' & _ & _ & Hsize).
  exists img'. split; [done|].
  destruct max_size as [x y], (size img) as [width height] eqn:Hsz. cbn [fst snd] in *.
  destruct (Z_le_gt_dec width x) as [Hfitw|Hbigw];
    [destruct (Z_le_gt_dec height y) as [Hfith|Hbigh]|].
  - rewrite preserve_aspect_ratio_fits in Hsize by done.
    destruct Hsize as [[_ ->]|[=]]. rewrite Hsz. cbn. lia.
  - destruct (ThumbnailFacts.preserve_aspect_ratio_reduces width height x y)
      as (x' & y' & Hratio & Hx' & Hy' & _); [lia..|].
    rewrite Hratio in Hsize. destruct Hsize as [[[=] _]|[= Hfinal]].
    rewrite <- Hfinal. cbn. lia.
  - destruct (ThumbnailFacts.preserve_aspect_ratio_reduces width height x y)
      as (x' & y' & Hratio & Hx' & Hy' & _); [lia..|].
    rewrite Hratio in Hsize. destruct Hsize as [[[=] _]|[= Hfinal]].
    rewrite <- Hfinal. cbn. lia.
Qed.

(** X2.  When such an image exceeds such a bound, the resized image has
    one side exactly on the bound and the other within one pixel of the
    length that keeps the proportions: [y * width / height] for the width
    when the height is on the bound, [x * height / width] for the height
    when the width is. *)
Theorem resize_image_keeps_proportions image max_size w img image' w' :
  heap w !! image = Some img ->
  (1 <= (size img).1)%Z -> (1 <= (size img).2)%Z ->
  (1 <= max_size.1)%Z -> (1 <= max_size.2)%Z ->
  (max_size.1 < (size img).1 \/ max_size.2 < (size img).2)%Z ->
  resize_image image max_size w = (inr image', w') ->
  exists img',
    heap w' !! image' = Some img'
    /\ (((size img').2 = max_size.2
         /\ ((size img').1 - 1) * (size img).2 <= max_size.2 * (size img).1
            < ((size img').1 + 1) * (size img).2)
        \/ ((size img').1 = max_size.1
            /\ ((size img').2 - 1) * (size img).1 <= max_size.1 * (size img).2
               < ((size img').2 + 1) * (size img).1))%Z.
Proof.
  intros Himg Hw Hh Hx Hy Hbig Hrun.
  destruct (resize_image_result _ _ _ _ _ _ Himg Hrun)
    as (-> & img' & Himg' & _ & _ & Hsize).
  exists img'. split; [done|].
  destruct max_size as [x y], (size img) as [width height]. cbn [fst snd] in *.
  destruct (ThumbnailFacts.preserve_aspect_ratio_reduces width height x y)
    as (x' & y' & Hratio & _ & _ & Hshape); [lia..|].
  rewrite Hratio in Hsize. destruct Hsize as [[[=] _]|[= Hfinal]].
  rewrite <- Hfinal. cbn [fst snd]. exact Hshape.
Qed.

(** X4.  [resize_image] raises [ZeroDivisionError], and changes nothing,
    when the image does not fit the bound and the image or the bound has
    height zero. *)
Theorem resize_image_errors image max_size w img :
  heap w !! image = Some img ->
  (max_size.1 < (size img).1 \/ max_size.2 < (size img).2)%Z ->
  (size img).2 = 0%Z \/ max_size.2 = 0%Z ->
  resize_image image max_size w
  = (inl (Exn "ZeroDivisionError" "division by zero"), w).
Proof.
  intros Himg. rewrite resize_image_eq, (thumbnail_eq _ _ _ _ Himg).
  destruct max_size as [x y], (size img) as [width height] eqn:Hsz. cbn [fst snd].
  intros Hbig Hzero. unfold Thumbnail.preserve_aspect_ratio.
  assert ((x >=? width)%Z && (y >=? height)%Z = false) as -> by lia.
  destruct (Z.eqb_spec height 0) as [_|Hheight]; [done|].
  assert ((y =? 0)%Z = true) as -> by lia. done.
Qed.

(** ** [load_image_as_pillow] *)

(** X5.  What [load_image_as_pillow] returns is a new object of the size
    the file declares: the opened image itself (format and raster as
    opened) when its mode is RGB or L, and otherwise an RGB conversion of
    its raster with no format. *)
Theorem load_image_as_pillow_result data w src r w' :
  Image_open data = inr src ->
  load_image_as_pillow data w = (inr r, w') ->
  heap w !! r = None
  /\ exists img,
       heap w' !! r = Some img
       /\ size img = size src
       /\ (str_in (mode src) ["RGB"; "L"] = true -> img = src)
       /\ (str_in (mode src) ["RGB"; "L"] = false ->
           mode img = "RGB" /\ format img = None
           /\ im_convert (im src) (mode src) "RGB" = inr (im img)).
Proof.
  intros Hopen. destruct (str_in (mode src) ["RGB"; "L"]) eqn:Hmode.
  - rewrite (load_supported_mode _ _ _ Hopen Hmode). intros [= <- <-].
    split; [by apply lookup_ge_None_2|].
    exists src. cbn [grown heap]. rewrite lookup_fresh. by repeat split.
  - rewrite (load_other_mode _ _ _ Hopen Hmode).
    destruct (im_convert (im src) (mode src) "RGB") as [e|px] eqn:Hpx; [done|].
    intros [= <- <-]. split; [apply lookup_ge_None_2; lia|].
    eexists. cbn [grown heap]. split.
    + change [src; ?x] with ([src] ++ [x]). rewrite app_assoc.
      replace (S (length (heap w))) with (length (heap w ++ [src]))
        by (rewrite length_app; cbn; lia).
      apply lookup_fresh.
    + by repeat split.
Qed.

(** ** [optimize_image_for_api] *)

(** X6.  For a bound of at least one pixel each way, the bytes
    [optimize_image_for_api] returns are the JPEG encoding, at the quality
    asked for, of an image in mode RGB or L that is within the bound: the
    caller's image if it already was both, a resized or converted one
    otherwise. *)
Theorem optimize_image_for_api_output image max_size quality w out w' :
  (1 <= max_size.1)%Z -> (1 <= max_size.2)%Z ->
  optimize_image_for_api image max_size quality w = (inr out, w') ->
  exists img encoded,
    heap w !! image = Some img
    /\ Image_save encoded "JPEG" (Some quality) = inr out
    /\ (mode encoded = "RGB" \/ mode encoded = "L")
    /\ ((size encoded).1 <= max_size.1)%Z
    /\ ((size encoded).2 <= max_size.2)%Z
    /\ (str_in (mode img) ["RGB"; "L"] = true ->
        ((size img).1 <= max_size.1)%Z -> ((size img).2 <= max_size.2)%Z ->
        encoded = img).
Proof.
  intros Hx Hy. unfold optimize_image_for_api, bind at 1.
  destruct (heap w !! image) as [img|] eqn:Himg; cycle 1.
  { unfold deref. by rewrite Himg. }
  rewrite (deref_some _ _ _ Himg). unfold ok at 1. cbv beta iota. unfold bind at 1.
  set (exceeds := ((size img).1 >? max_size.1)%Z || ((size img).2 >? max_size.2)%Z).
  assert (forall image1 w1,
            (if exceeds then resize_image image max_size else ret image) w
            = (inr image1, w1) ->
            image1 = image
            /\ exists img1,
                 heap w1 !! image = Some img1
                 /\ mode img1 = mode img
                 /\ ((size img1).1 <= max_size.1)%Z
                 /\ ((size img1).2 <= max_size.2)%Z
                 /\ (((size img).1 <= max_size.1)%Z ->
                     ((size img).2 <= max_size.2)%Z -> img1 = img)) as Hstep.
  { intros image1 w1. destruct exceeds eqn:Hexceeds.
    - intros Hrun.
      destruct (resize_image_result _ _ _ _ _ _ Himg Hrun)
        as (-> & img1 & Himg1 & Hmode & _ & Hsize).
      split; [done|]. exists img1. split; [done|]. split; [done|].
      subst exceeds. destruct Hsize as [[Hnone ->]|Hfinal].
      + apply preserve_aspect_ratio_none in Hnone. lia.
      + destruct max_size as [x y], (size img1) as [x' y'].
        apply preserve_aspect_ratio_within in Hfinal; [|done..].
        cbn [fst snd] in *. lia.
    - intros [= <- <-]. split; [done|]. exists img. subst exceeds.
      repeat split; [done|lia..]. }
  destruct ((if exceeds then resize_image image max_size else ret image) w)
    as [[e|image1] w1]; [cbv beta iota; done|].
  destruct (Hstep _ _ eq_refl) as (-> & img1 & Himg1 & Hmode1 & Hw1 & Hh1 & Hsame).
  unfold bind. rewrite (deref_some _ _ _ Himg1).
  unfold ok at 1. cbv beta iota.
  destruct (str_in (mode img1) ["RGB"; "L"]) eqn:Hsupported; cbn [negb].
  - unfold save. unfold_monad. rewrite Himg1.
    destruct (Image_save img1 "JPEG" (Some quality)) eqn:Hsave; [done|].
    intros [= <- <-]. exists img, img1. split; [done|]. split; [done|].
    split; [by apply supported_mode_spec|]. by repeat split.
  - unfold convert, save. unfold_monad. rewrite Himg1.
    destruct (im_convert (im img1) (mode img1) "RGB") as [e|px]; [done|].
    cbn [heap]. rewrite lookup_fresh.
    destruct (Image_save _ "JPEG" (Some quality)) eqn:Hsave; [done|].
    intros [= <- <-]. eexists img, _. split; [done|]. split; [exact Hsave|].
    cbn [mode size]. split; [by left|]. split; [done|]. split; [done|].
    intros Hsup. congruence.
Qed.

(** ** [analyze_comic_cover] and [identify_comic] *)

(** What [analyze_comic_cover] does to the world: nothing when the PNG
    cannot be written, and otherwise one request, whatever comes of it. *)
Lemma analyze_comic_cover_world pil w out w' :
  analyze_comic_cover pil w = (out, w') ->
  (exists e, save pil "PNG" None w = (inl e, w) /\ out = inl e /\ w' = w)
  \/ (exists png,
        save pil "PNG" None w = (inr png, w)
        /\ w' = called w (vision_request (b64encode png))).
Proof.
  rewrite analyze_comic_cover_eq.
  destruct (save pil "PNG" None w) as [[e|png] w2] eqn:Hsave;
    pose proof (save_reads_only _ _ _ _ _ _ Hsave) as ->.
  - intros [= <- <-]. left. eauto.
  - cbn zeta. intros Hrun. right. exists png. split; [done|].
    destruct (hosted_model _ _); [|destruct (first_content _)]; by injection Hrun.
Qed.

(** X7.  [analyze_comic_cover] sends at most one request and touches no
    image: none when the image cannot be written out as PNG, and
    otherwise exactly one, for the model gpt-4o with the PNG as a base64
    data URL, whether the call then succeeds, raises, or returns
    something that does not parse.  There is no second attempt. *)
Theorem analyze_comic_cover_one_request pil w out w' :
  analyze_comic_cover pil w = (out, w') ->
  heap w' = heap w
  /\ ((calls w' = calls w /\ is_ok out = false
       /\ is_ok (save pil "PNG" None w).1 = false)
      \/ exists png,
           (save pil "PNG" None w).1 = inr png
           /\ calls w'
              = calls w
                ++ [ {| model := "gpt-4o";
                        messages :=
                          [ {| role := "user";
                               content :=
                                 [ TextPart prompt;
                                   ImageUrlPart ("data:image/png;base64,"
                                                 +:+ b64encode png) ] |} ] |} ]).
Proof.
  intros [(e & Hsave & -> & ->)|(png & Hsave & ->)]%analyze_comic_cover_world.
  - split; [done|]. left. by rewrite Hsave.
  - split; [done|]. right. exists png. by rewrite Hsave.
Qed.

Lemma load_allocates_two data w out w' :
  load_image_as_pillow data w = (out, w') ->
  exists new, w' = grown w new /\ length new <= 2.
Proof.
  destruct (Image_open data) as [e|src] eqn:Hopen.
  - rewrite (load_open_fails _ _ _ Hopen). intros [= _ <-].
    exists []. rewrite grown_nil. split; [done|cbn; lia].
  - destruct (str_in (mode src) ["RGB"; "L"]) eqn:Hmode.
    + rewrite (load_supported_mode _ _ _ Hopen Hmode). intros [= _ <-].
      eexists. split; [done|cbn; lia].
    + rewrite (load_other_mode _ _ _ Hopen Hmode).
      destruct (im_convert _ _ _); intros [= _ <-];
        (eexists; split; [done|cbn; lia]).
Qed.

(** X8.  One call of [identify_comic] leaves every image that existed and
    every request that had been sent as they were: it allocates at most
    two images and sends at most one request. *)
Theorem identify_comic_effects image user_id w out w' :
  identify_comic image user_id w = (out, w') ->
  exists new sent,
    heap w' = heap w ++ new
    /\ calls w' = calls w ++ sent
    /\ length new <= 2
    /\ length sent <= 1.
Proof.
  rewrite identify_comic_eq.
  destruct (load_image_as_pillow image w) as [[e|pil] w1] eqn:Hload;
    destruct (load_allocates_two _ _ _ _ Hload) as (new & -> & Hnew).
  - intros [= _ <-]. exists new, []. cbn [grown heap calls].
    rewrite app_nil_r. split; [done|]. split; [done|]. split; [done|cbn; lia].
  - destruct (analyze_comic_cover pil (grown w new)) as [res w2] eqn:Hrun.
    assert (exists sent, heap w2 = heap w ++ new /\ calls w2 = calls w ++ sent
                         /\ length sent <= 1) as (sent & Hheap & Hcalls & Hsent).
    { apply analyze_comic_cover_world in Hrun
        as [(e & _ & _ & ->)|(png & _ & ->)].
      - exists []. cbn [grown heap calls]. rewrite app_nil_r.
        split; [done|]. split; [done|]. cbn. lia.
      - eexists [_]. cbn [called grown heap calls].
        split; [done|]. split; [done|]. cbn. lia. }
    intros Hout. exists new, sent.
    by destruct res; injection Hout as _ <-.
Qed.

(** X9.  [identify_comic] never lets an exception out: it always hands
    the framework a response, the dict of a successful identification or
    its own 500.  So the client always gets an answer, with status 200 or
    500, and the application's exception handler answers (the body then
    has its [error] key) exactly when the framework cannot encode what
    [identify_comic] handed over, never for a failure of the
    identification itself.  An answer with status 200 is the response
    handed over, and exactly one request was sent for it. *)
Theorem identify_comic_always_answers
    (render : json -> result unit) image user_id url w :
  exists handed w' answer,
    identify_comic image user_id w = (ok handed, w')
    /\ guarded render (identify_comic image user_id) url w = (answer, w')
    /\ (status_code handed = 200%Z \/ exists e, handed = identification_error e)
    /\ (status_code answer = 200%Z \/ status_code answer = 500%Z)
    /\ (is_ok (render (body handed)) = true ->
        answer = handed /\ field "error" (body answer) = None)
    /\ (forall exc,
          render (body handed) = inl exc ->
          answer = global_exception_handler url exc
          /\ field "error" (body answer) = Some (JStr "Internal server error"))
    /\ (status_code answer = 200%Z ->
        answer = handed
        /\ field "detail" (body answer) = None
        /\ exists w1 req, heap w' = heap w1 /\ calls w' = calls w1 ++ [req]
                          /\ calls w1 = calls w).
Proof.
  assert (exists handed w',
            identify_comic image user_id w = (ok handed, w')
            /\ ((exists e, handed = identification_error e)
                \/ (status_code handed = 200%Z
                    /\ field "detail" (body handed) = None
                    /\ field "error" (body handed) = None
                    /\ exists w1 req, heap w' = heap w1
                                      /\ calls w' = calls w1 ++ [req]
                                      /\ calls w1 = calls w)))
    as (handed & w' & Hrun & Hhanded).
  { rewrite identify_comic_eq.
    destruct (load_image_as_pillow image w) as [[e|pil] w1] eqn:Hload.
    { eexists _, _. split; [done|]. left. eauto. }
    destruct (load_allocates_two _ _ _ _ Hload) as (new & -> & _).
    destruct (analyze_comic_cover pil (grown w new))
      as [[e|identification] w2] eqn:Hrun.
    { eexists _, _. split; [done|]. left. eauto. }
    eexists _, _. split; [done|]. right.
    split; [done|]. split; [done|]. split; [done|].
    apply analyze_comic_cover_world in Hrun as [(e & _ & [=] & _)|(png & _ & ->)].
    by exists (grown w new), (vision_request (b64encode png)). }
  unfold guarded. rewrite Hrun. unfold ok. cbv beta iota.
  destruct (render (body handed)) as [exc|[]] eqn:Hrender.
  - exists handed, w', (global_exception_handler url exc).
    rewrite Hrender.
    split; [done|]. split; [done|].
    split; [destruct Hhanded as [?|(? & _)]; eauto|].
    split; [by right|]. split; [by cbn|].
    split; [by intros ? [= <-]|]. done.
  - exists handed, w', handed. rewrite Hrender.
    split; [done|]. split; [done|].
    destruct Hhanded as [[e ->]|(Hstatus & Hdetail & Herror & Hsent)].
    + split; [eauto|]. split; [by right|]. split; [done|]. split; [done|]. done.
    + split; [by left|]. split; [by left|]. split; [done|]. split; [done|]. done.
Qed.

(** X10.  Whatever JSON value a reply within the interpreter's limits
    denotes (an object or not) is handed over as [metadata] as it is,
    beside the [user_id] that was submitted and nothing else.  The
    client gets it with status 200 when the framework can encode it, and
    the exception handler's 500 when it cannot. *)
Theorem identify_comic_valid_reply
    (render : json -> result unit) url
    image user_id w pil w1 png w2 resp reply metadata :
  load_image_as_pillow image w = (inr pil, w1) ->
  save pil "PNG" None w1 = (inr png, w2) ->
  hosted_model (calls w2) (vision_request (b64encode png)) = inr resp ->
  first_content resp = ok (Some reply) ->
  json_loads (Some reply) = ok metadata ->
  within_limits reply = true ->
  let handed := JDict [("user_id", JStr user_id); ("metadata", metadata)] in
  guarded render (identify_comic image user_id) url w
  = (match render handed with
     | inr _ => {| status_code := 200; body := handed |}
     | inl exc => global_exception_handler url exc
     end,
     called w2 (vision_request (b64encode png))).
Proof.
  intros Hload Hsave Hcall Hfirst Hparse _ handed.
  unfold guarded.
  rewrite identify_comic_eq, Hload, analyze_comic_cover_eq, Hsave.
  cbn zeta. rewrite Hcall, Hfirst. unfold ok at 1. cbv beta iota.
  rewrite Hparse. unfold ok. cbv beta iota. cbn [body]. fold handed.
  by destruct (render handed).
Qed.

Lemma json_loads_cannot_start c rest :
  cannot_start_json c = true ->
  json_loads (Some (String c rest))
  = inl (Exn "JSONDecodeError" "Expecting value: line 1 column 1 (char 0)").
Proof.
  destruct c as [[] [] [] [] [] [] [] []]; intros Hc; vm_compute in Hc;
    try discriminate Hc; clear Hc; vm_compute; reflexivity.
Qed.

(** X11.  A reply that begins with an ASCII character no JSON text can
    begin with (the backtick of a Markdown fence, the first letter of
    most prose) is rejected at its first character: the endpoint answers
    500 with "Identification error: Expecting value: line 1 column 1
    (char 0)", the one request having been sent. *)
Theorem identify_comic_rejects_prose image user_id w pil w1 png w2 resp c rest :
  load_image_as_pillow image w = (inr pil, w1) ->
  save pil "PNG" None w1 = (inr png, w2) ->
  hosted_model (calls w2) (vision_request (b64encode png)) = inr resp ->
  first_content resp = ok (Some (String c rest)) ->
  cannot_start_json c = true ->
  identify_comic image user_id w
  = (ok {| status_code := 500;
           body := JDict [("detail",
                           JStr "Identification error: Expecting value: line 1 column 1 (char 0)")] |},
     called w2 (vision_request (b64encode png))).
Proof.
  intros Hload Hsave Hcall Hfirst Hc.
  rewrite identify_comic_eq, Hload, analyze_comic_cover_eq, Hsave.
  cbn zeta. rewrite Hcall, Hfirst. unfold ok at 1. cbv beta iota.
  by rewrite (json_loads_cannot_start _ _ Hc).
Qed.

End MoreProperties.

(** ** main.py: start-up and health *)

Lemma count_chars_cons c s :
  Json.count_chars (c :: s)
  = if Json.is_char_start c then S (Json.count_chars s) else Json.count_chars s.
Proof.
  unfold Json.count_chars. cbn [filter list_filter].
  by destruct (Json.is_char_start c).
Qed.

Lemma take_chars_all n s : Json.count_chars s <= n -> take_chars n s = s.
Proof.
  revert n. induction s as [|c s IH]; intros n; [done|].
  rewrite count_chars_cons. cbn [take_chars].
  destruct (Json.is_char_start c).
  - destruct n as [|n]; [lia|]. intros Hn. f_equal. apply IH. lia.
  - intros Hn. f_equal. by apply IH.
Qed.

Lemma take_chars_count n s : Json.count_chars (take_chars n s) <= n.
Proof.
  revert n. induction s as [|c s IH]; intros n; [cbn; lia|].
  cbn [take_chars]. destruct (Json.is_char_start c) eqn:Hc.
  - destruct n as [|n]; [cbn; lia|].
    rewrite count_chars_cons, Hc. specialize (IH n). lia.
  - rewrite count_chars_cons, Hc. apply IH.
Qed.

Lemma take_chars_prefix n s : exists rest, s = take_chars n s ++ rest.
Proof.
  revert n. induction s as [|c s IH]; intros n; [by exists []|].
  cbn [take_chars]. destruct (Json.is_char_start c).
  - destruct n as [|n]; [by eexists|].
    destruct (IH n) as [rest Hrest]. exists rest. cbn. by f_equal.
  - destruct (IH n) as [rest Hrest]. exists rest. cbn. by f_equal.
Qed.

Lemma string_of_list_ascii_app l1 l2 :
  string_of_list_ascii (l1 ++ l2)
  = string_of_list_ascii l1 +:+ string_of_list_ascii l2.
Proof. induction l1 as [|c l1 IH]; cbn; [done|]. by rewrite IH. Qed.

Lemma log_openai_key_set env key :
  key <> "" ->
  log_openai_key (<["OPENAI_API_KEY" := key]> env)
  = log_info ("✅ OPENAI_API_KEY is configured (starts with: "
              +:+ str_prefix 10 key +:+ "...)").
Proof.
  intros Hne%String.eqb_neq. unfold log_openai_key.
  rewrite lookup_insert_eq. cbn [truthy default]. by rewrite Hne.
Qed.

Lemma start_up_key_set env version before after key :
  (start_up (<["OPENAI_API_KEY" := key]> env) version before after).2
  = [log_info (string_of_list_ascii (repeat "="%char 60));
     log_info "Comic Vault API - Starting up...";
     log_info (string_of_list_ascii (repeat "="%char 60));
     log_info "✅ FastAPI app created successfully";
     log_info "✅ CORS middleware configured"]
    ++ (include_identify_router
          (match before with inl e => inl e | inr _ => after end)).2
    ++ [log_openai_key (<["OPENAI_API_KEY" := key]> env)].
Proof.
  unfold start_up, import_main, import_identify_router, OpenAI_client.
  rewrite lookup_insert_eq.
  destruct before as [e|[]]; [|destruct after as [e|[]]]; reflexivity.
Qed.

(** X12.  Of the value of [OPENAI_API_KEY], the start-up log shows at
    most the first ten characters, in its last record (the whole key
    when it has no more than ten): two keys that are not empty and begin
    with the same ten characters leave the same log.  When the variable is
    empty or unset the last record is a warning; and when it is unset, the
    client cannot be made while the identification router is imported, so
    that import fails: two errors are logged before the warning and the
    identification path is not registered. *)
Theorem startup_log_shows_key_prefix env version before after :
  (forall key,
     env !! "OPENAI_API_KEY" = Some key -> key <> "" ->
     last (start_up env version before after).2
     = Some {| levelname := "INFO";
               message := "✅ OPENAI_API_KEY is configured (starts with: "
                          +:+ str_prefix 10 key +:+ "...)" |}
     /\ str_len (str_prefix 10 key) <= 10
     /\ (exists rest, key = str_prefix 10 key +:+ rest)
     /\ (str_len key <= 10 -> str_prefix 10 key = key))
  /\ (forall key1 key2,
        key1 <> "" -> key2 <> "" ->
        str_prefix 10 key1 = str_prefix 10 key2 ->
        (start_up (<["OPENAI_API_KEY" := key1]> env) version before after).2
        = (start_up (<["OPENAI_API_KEY" := key2]> env) version before after).2)
  /\ (truthy (env !! "OPENAI_API_KEY") = false ->
      last (start_up env version before after).2
      = Some {| levelname := "WARNING";
                message := "⚠️  OPENAI_API_KEY is not set - AI features will not work" |})
  /\ (env !! "OPENAI_API_KEY" = None ->
      exists reason,
        start_up env version before after
        = ({| environ := env;
              routes := documentation_routes ++ ["/"; "/health"];
              sys_version := version |},
           [log_info (string_of_list_ascii (repeat "="%char 60));
            log_info "Comic Vault API - Starting up...";
            log_info (string_of_list_ascii (repeat "="%char 60));
            log_info "✅ FastAPI app created successfully";
            log_info "✅ CORS middleware configured";
            log_error ("❌ Failed to load identification router: " +:+ reason);
            log_error "API will start but /api/comics/identify endpoint will not be available";
            log_warning "⚠️  OPENAI_API_KEY is not set - AI features will not work"])).
Proof.
  assert (forall imported,
            last (import_main env version imported).2 = Some (log_openai_key env))
    as Hlast.
  { intros imported. unfold import_main.
    destruct (include_identify_router imported) as [paths records]. cbn [snd].
    by rewrite app_assoc, last_snoc. }
  split; [|split; [|split]].
  - intros key Hkey Hne. unfold start_up. rewrite Hlast.
    unfold log_openai_key. rewrite Hkey. cbn [truthy default].
    apply String.eqb_neq in Hne. rewrite Hne. cbn [negb].
    split; [done|]. unfold str_prefix, str_len. split; [|split].
    + rewrite list_ascii_of_string_of_list_ascii. apply take_chars_count.
    + destruct (take_chars_prefix 10 (list_ascii_of_string key)) as [rest Hrest].
      exists (string_of_list_ascii rest).
      rewrite <- string_of_list_ascii_app, <- Hrest.
      by rewrite string_of_list_ascii_of_string.
    + intros Hshort. rewrite take_chars_all by done.
      apply string_of_list_ascii_of_string.
  - intros key1 key2 Hne1 Hne2 Hprefix.
    rewrite !start_up_key_set, !log_openai_key_set by done.
    by rewrite Hprefix.
  - intros Hfalse. unfold start_up. rewrite Hlast.
    unfold log_openai_key. by rewrite Hfalse.
  - intros Hunset.
    unfold start_up, import_identify_router, OpenAI_client. rewrite Hunset.
    unfold import_main, log_openai_key. rewrite Hunset. cbn [truthy].
    destruct before as [e|[]]; eexists; reflexivity.
Qed.

(** X13.  The health response reads two variables of the environment and
    no other: setting any other variable leaves it as it was.  An
    [OPENAI_API_KEY] set to the empty text counts as not configured;
    [ENVIRONMENT] is reported as it is set, even empty, and as
    "production" only when it is unset. *)
Theorem health_check_reads_two_variables (p : process) :
  (forall name value,
     name <> "OPENAI_API_KEY" -> name <> "ENVIRONMENT" ->
     health_check (setenv p name value) = health_check p)
  /\ field "openai_configured" (health_check (setenv p "OPENAI_API_KEY" ""))
     = Some (JBool false)
  /\ (forall value,
        field "environment" (health_check (setenv p "ENVIRONMENT" value))
        = Some (JStr value))
  /\ (environ p !! "ENVIRONMENT" = None ->
      field "environment" (health_check p) = Some (JStr "production")).
Proof.
  unfold health_check, getenv, getenv_default, setenv. cbn [environ routes sys_version].
  split; [|split; [|split]].
  - intros name value Hkey Henv. by rewrite !lookup_insert_ne.
  - by rewrite lookup_insert_eq.
  - intros value. by rewrite lookup_insert_eq.
  - by intros ->.
Qed.

(** X14.  The application comes up whether or not the identification
    router could be imported, and [routes_loaded] in the health response
    tells which: it is true exactly when the import succeeded.  Every
    path the root endpoint advertises is registered, except the
    identification path when that import failed. *)
Theorem routes_loaded_tells_import env version imported :
  let p := (import_main env version imported).1 in
  field "routes_loaded" (health_check p) = Some (JBool (is_ok imported))
  /\ ("/api/comics/identify" ∈ routes p <-> is_ok imported = true)
  /\ "/" ∈ routes p
  /\ "/health" ∈ routes p
  /\ forall name path,
       field "endpoints" root ≫= field name = Some (JStr path) ->
       path ∈ routes p
       \/ (name = "identify" /\ path = "/api/comics/identify"
           /\ is_ok imported = false).
Proof.
  destruct imported as [e|[]]; cbn.
  - split; [done|]. split.
    { split; [|done]. rewrite !elem_of_cons, elem_of_nil.
      intros H. repeat destruct H as [H|H]; done. }
    split; [rewrite !elem_of_cons; tauto|]. split; [rewrite !elem_of_cons; tauto|].
    intros name path.
    destruct (String.eqb_spec name "health") as [->|_];
      [intros [= <-]; left; rewrite !elem_of_cons; tauto|].
    destruct (String.eqb_spec name "docs") as [->|_];
      [intros [= <-]; left; rewrite !elem_of_cons; tauto|].
    destruct (String.eqb_spec name "identify") as [->|_]; [|done].
    intros [= <-]. by right.
  - split; [done|]. split.
    { split; [done|]. intros _. rewrite !elem_of_cons. tauto. }
    split; [rewrite !elem_of_cons; tauto|]. split; [rewrite !elem_of_cons; tauto|].
    intros name path.
    destruct (String.eqb_spec name "health") as [->|_];
      [intros [= <-]; left; rewrite !elem_of_cons; tauto|].
    destruct (String.eqb_spec name "docs") as [->|_];
      [intros [= <-]; left; rewrite !elem_of_cons; tauto|].
    destruct (String.eqb_spec name "identify") as [->|_]; [|done].
    intros [= <-]. left. rewrite !elem_of_cons. tauto.
Qed.

(** * The further properties on concrete inputs *)

Module MoreRuns.

Import Toy.

(** X1 and X2 on the 2000x1000 cover and the default bound. *)
Lemma resize_image_shrinks_run :
  exists img',
    heap (resize_image (ext := externals unreachable) 0 default_max_size shelf).2 !! 0
    = Some img'
    /\ (1 <= (size img').1 <= Z.min 1024 2000)%Z
    /\ (1 <= (size img').2 <= Z.min 1024 1000)%Z.
Proof.
  apply (resize_image_shrinks (ext := externals unreachable)
           0 default_max_size shelf cover 0); try reflexivity; cbn; lia.
Defined.

Lemma resize_image_keeps_proportions_run :
  exists img',
    heap (resize_image (ext := externals unreachable) 0 default_max_size shelf).2 !! 0
    = Some img'
    /\ (((size img').2 = 1024
         /\ ((size img').1 - 1) * 1000 <= 1024 * 2000 < ((size img').1 + 1) * 1000)
        \/ ((size img').1 = 1024
            /\ ((size img').2 - 1) * 2000 <= 1024 * 1000
               < ((size img').2 + 1) * 2000))%Z.
Proof.
  apply (resize_image_keeps_proportions (ext := externals unreachable)
           0 default_max_size shelf cover 0); try reflexivity; cbn; lia.
Defined.

(** X4 on the cover with a bound of height zero. *)
Lemma resize_image_errors_run :
  resize_image (ext := externals unreachable) 0 (1024, 0)%Z shelf
  = (inl (Exn "ZeroDivisionError" "division by zero"), shelf).
Proof.
  apply (resize_image_errors (ext := externals unreachable)
           0 (1024, 0)%Z shelf cover eq_refl); cbn; lia.
Defined.

(** X5 on a palette upload. *)
Lemma load_image_as_pillow_result_run :
  heap shelf !! 2 = None
  /\ exists img,
       heap (load_image_as_pillow (ext := externals unreachable)
               palette_upload shelf).2 !! 2 = Some img
       /\ size img = (2000, 1000)%Z
       /\ mode img = "RGB" /\ format img = None.
Proof.
  destruct (load_image_as_pillow_result (ext := externals unreachable)
              palette_upload shelf
              {| mode := "P"; size := (2000, 1000)%Z; format := Some "PNG"; im := true |}
              2 _ eq_refl eq_refl) as (Hfresh & img & Himg & Hsize & _ & Hconverted).
  split; [exact Hfresh|]. exists img. split; [exact Himg|]. split; [exact Hsize|].
  destruct (Hconverted eq_refl) as (Hmode & Hformat & _). by split.
Defined.

(** X6 on the cover and the default bound and quality. *)
Lemma optimize_image_for_api_output_run :
  exists img encoded,
    heap shelf !! 0 = Some img
    /\ Image_save (Externals := externals unreachable) encoded "JPEG" (Some 85%Z)
       = inr []
    /\ (mode encoded = "RGB" \/ mode encoded = "L")
    /\ ((size encoded).1 <= 1024)%Z
    /\ ((size encoded).2 <= 1024)%Z
    /\ (str_in (mode img) ["RGB"; "L"] = true ->
        ((size img).1 <= 1024)%Z -> ((size img).2 <= 1024)%Z -> encoded = img).
Proof.
  eapply (optimize_image_for_api_output (ext := externals unreachable)
            0 default_max_size default_quality shelf []);
    [cbn; lia..|vm_compute; reflexivity].
Defined.

(** X7 on the cover, the hosted model being out of reach. *)
Lemma analyze_comic_cover_one_request_run :
  heap (analyze_comic_cover (ext := externals unreachable) 0 shelf).2 = [cover]
  /\ calls (analyze_comic_cover (ext := externals unreachable) 0 shelf).2
     = [vision_request ""].
Proof.
  destruct (analyze_comic_cover_one_request (ext := externals unreachable)
              0 shelf _ _ eq_refl) as [Hheap [(_ & _ & Hsave)|(png & Hsave & Hcalls)]].
  - discriminate Hsave.
  - split; [exact Hheap|]. injection Hsave as <-. exact Hcalls.
Defined.

(** X8 on an upload whose reply is fenced. *)
Lemma identify_comic_effects_run :
  exists new sent,
    heap (identify_comic (ext := externals (says fenced_reply))
            upload "reader-7" shelf).2 = [cover] ++ new
    /\ calls (identify_comic (ext := externals (says fenced_reply))
                upload "reader-7" shelf).2 = [] ++ sent
    /\ length new <= 2
    /\ length sent <= 1.
Proof.
  apply (identify_comic_effects (ext := externals (says fenced_reply))
           upload "reader-7" shelf _ _ eq_refl).
Defined.

(** X9 on the same upload, and on a reply that parses to a value the
    framework cannot encode. *)
Lemma identify_comic_always_answers_run :
  (exists answer w',
     guarded (ext := externals (says fenced_reply)) render
       (identify_comic (ext := externals (says fenced_reply)) upload "reader-7")
       "http://localhost:8000/api/comics/identify" shelf = (answer, w')
     /\ status_code answer = 500%Z
     /\ field "error" (body answer) = None)
  /\ (exists answer w',
        guarded (ext := externals (says "NaN")) render
          (identify_comic (ext := externals (says "NaN")) upload "reader-7")
          "http://localhost:8000/api/comics/identify" shelf = (answer, w')
        /\ status_code answer = 500%Z
        /\ field "error" (body answer) = Some (JStr "Internal server error")
        /\ calls w' = [vision_request ""]).
Proof.
  split.
  - destruct (identify_comic_always_answers (ext := externals (says fenced_reply))
                render upload "reader-7"
                "http://localhost:8000/api/comics/identify" shelf)
      as (handed & w' & answer & Hrun & Hguarded & _ & _ & Hencoded & _).
    injection Hrun as <- <-.
    destruct (Hencoded eq_refl) as [-> Herror].
    eexists _, _. split; [exact Hguarded|]. split; [reflexivity|exact Herror].
  - destruct (identify_comic_always_answers (ext := externals (says "NaN"))
                render upload "reader-7"
                "http://localhost:8000/api/comics/identify" shelf)
      as (handed & w' & answer & Hrun & Hguarded & _ & _ & _ & Hrefused & _).
    injection Hrun as <- <-.
    destruct (Hrefused
                (Exn "ValueError" "Out of range float values are not JSON compliant")
                eq_refl) as [-> Herror].
    eexists _, _. split; [exact Hguarded|]. split; [reflexivity|].
    split; [exact Herror|reflexivity].
Defined.

(** X10 on a reply that is a JSON array. *)
Lemma identify_comic_valid_reply_run :
  guarded (ext := externals (says "[1, 2]")) render
    (identify_comic (ext := externals (says "[1, 2]")) upload "reader-7")
    "http://localhost:8000/api/comics/identify" shelf
  = ({| status_code := 200;
        body := JDict [("user_id", JStr "reader-7");
                       ("metadata", JList [JInt 1; JInt 2])] |},
     {| heap := [cover; {| mode := "RGB"; size := (2000, 1000)%Z;
                          format := Some "PNG"; im := true |}];
        calls := [vision_request ""] |}).
Proof.
  apply (identify_comic_valid_reply (ext := externals (says "[1, 2]"))
           render "http://localhost:8000/api/comics/identify"
           upload "reader-7" shelf 1
           (grown (ext := externals (says "[1, 2]")) shelf
              [{| mode := "RGB"; size := (2000, 1000)%Z;
                  format := Some "PNG"; im := true |}])
           []
           (grown (ext := externals (says "[1, 2]")) shelf
              [{| mode := "RGB"; size := (2000, 1000)%Z;
                  format := Some "PNG"; im := true |}])
           {| choices := [ {| message_content := Some "[1, 2]" |} ] |} "[1, 2]"
           (JList [JInt 1; JInt 2]));
    vm_compute; reflexivity.
Defined.

(** X11 on a reply that opens with prose. *)
Lemma identify_comic_rejects_prose_run :
  identify_comic (ext := externals (says "Here is the JSON: {}"))
    upload "reader-7" shelf
  = (ok {| status_code := 500;
           body := JDict [("detail",
                           JStr "Identification error: Expecting value: line 1 column 1 (char 0)")] |},
     {| heap := [cover; {| mode := "RGB"; size := (2000, 1000)%Z;
                          format := Some "PNG"; im := true |}];
        calls := [vision_request ""] |}).
Proof.
  apply (identify_comic_rejects_prose (ext := externals (says "Here is the JSON: {}"))
           upload "reader-7" shelf 1
           (grown (ext := externals (says "Here is the JSON: {}")) shelf
              [{| mode := "RGB"; size := (2000, 1000)%Z;
                  format := Some "PNG"; im := true |}])
           []
           (grown (ext := externals (says "Here is the JSON: {}")) shelf
              [{| mode := "RGB"; size := (2000, 1000)%Z;
                  format := Some "PNG"; im := true |}])
           {| choices := [ {| message_content := Some "Here is the JSON: {}" |} ] |}
           "H"%char "ere is the JSON: {}");
    vm_compute; reflexivity.
Defined.

(** X12 on a key of twenty characters, and with no key. *)
Lemma startup_log_shows_key_prefix_run :
  last (start_up {["OPENAI_API_KEY" := "sk-proj-0123456789ab"]} "3.11.4"
          (ok tt) (ok tt)).2
  = Some {| levelname := "INFO";
            message := "✅ OPENAI_API_KEY is configured (starts with: sk-proj-01...)" |}
  /\ (start_up (<["OPENAI_API_KEY" := "sk-proj-0123456789ab"]> ∅) "3.11.4"
        (ok tt) (ok tt)).2
     = (start_up (<["OPENAI_API_KEY" := "sk-proj-01zzzzzzzzzzzz"]> ∅) "3.11.4"
          (ok tt) (ok tt)).2
  /\ exists reason,
       start_up ∅ "3.11.4" (ok tt) (ok tt)
       = ({| environ := ∅;
             routes := documentation_routes ++ ["/"; "/health"];
             sys_version := "3.11.4" |},
          [log_info (string_of_list_ascii (repeat "="%char 60));
           log_info "Comic Vault API - Starting up...";
           log_info (string_of_list_ascii (repeat "="%char 60));
           log_info "✅ FastAPI app created successfully";
           log_info "✅ CORS middleware configured";
           log_error ("❌ Failed to load identification router: " +:+ reason);
           log_error "API will start but /api/comics/identify endpoint will not be available";
           log_warning "⚠️  OPENAI_API_KEY is not set - AI features will not work"]).
Proof.
  split.
  { destruct (startup_log_shows_key_prefix
                {["OPENAI_API_KEY" := "sk-proj-0123456789ab"]} "3.11.4"
                (ok tt) (ok tt)) as (Hkey & _).
    destruct (Hkey "sk-proj-0123456789ab") as [Hlog _]; [reflexivity|discriminate|].
    exact Hlog. }
  destruct (startup_log_shows_key_prefix ∅ "3.11.4" (ok tt) (ok tt))
    as (_ & Hsame & _ & Hunset).
  split; [apply Hsame; [discriminate..|reflexivity]|].
  apply Hunset. reflexivity.
Defined.

(** X13 on a machine where an unrelated variable is set. *)
Lemma health_check_reads_two_variables_run :
  health_check (setenv machine "DATABASE_URL" "postgres://db") = health_check machine
  /\ field "environment" (health_check machine) = Some (JStr "production").
Proof.
  destruct (health_check_reads_two_variables machine) as (Hother & _ & _ & Hdefault).
  split; [apply Hother; discriminate|apply Hdefault; reflexivity].
Defined.

(** X14 when the import of the router fails. *)
Lemma routes_loaded_tells_import_run :
  let p := (import_main ∅ "3.11.4"
              (raise "OpenAIError" "The api_key client option must be set")).1 in
  field "routes_loaded" (health_check p) = Some (JBool false)
  /\ "/health" ∈ routes p
  /\ ~ "/api/comics/identify" ∈ routes p.
Proof.
  destruct (routes_loaded_tells_import ∅ "3.11.4"
              (raise "OpenAIError" "The api_key client option must be set"))
    as (Hloaded & Hiff & _ & Hhealth & Hadvertised).
  split; [exact Hloaded|]. split; [exact Hhealth|].
  intros Hin. apply Hiff in Hin. discriminate Hin.
Defined.

End MoreRuns.


(** ** Whitespace around a reply *)

Module JsonPadding.

Import Json.

Lemma skip_ws_padding l j : forallb is_ws l = true -> (skip_ws l j).1 = [].
Proof.
  revert j. induction l as [|x l IH]; intros j; [done|]. cbn.
  intros [-> Hl]%andb_true_iff. by apply IH.
Qed.

Section Padded.

(** [t] is what is put after the text: whitespace only. *)
Variable t : chars.
Hypothesis Ht : forallb is_ws t = true.

Lemma padding_head c : is_ws c = false -> next_is c t = None.
Proof using Ht.
  intros Hc. destruct t as [|x t']; [done|]. cbn in *.
  apply andb_true_iff in Ht as [Hx _].
  destruct (Ascii.eqb_spec x c) as [->|]; [congruence|done].
Qed.

Lemma next_is_padded c s :
  is_ws c = false -> next_is c (s ++ t) = (.++ t) <$> next_is c s.
Proof using Ht.
  intros Hc. destruct s as [|x s']; [by apply padding_head|].
  cbn. by destruct (Ascii.eqb x c).
Qed.

Lemma skip_ws_padded s i s2 i2 j :
  skip_ws s i = (s2, i2) -> s2 <> [] ->
  exists j2, skip_ws (s ++ t) j = (s2 ++ t, j2).
Proof.
  revert i j. induction s as [|c s IH]; intros i j; cbn.
  - intros [= <- _]. done.
  - destruct (is_ws c); [apply IH|]. intros [= <- _] _. eauto.
Qed.

Lemma skip_ws_all_padding s i j :
  (skip_ws s i).1 = [] -> (skip_ws (s ++ t) j).1 = [].
Proof using Ht.
  revert i j. induction s as [|c s IH]; intros i j; cbn.
  - intros _. by apply skip_ws_padding.
  - destruct (is_ws c); [apply IH|done].
Qed.

Lemma strip_prefix_padded p s r :
  strip_prefix p s = Some r -> strip_prefix p (s ++ t) = Some (r ++ t).
Proof.
  revert s. induction p as [|a p IH]; intros [|b s]; cbn; try done.
  - by intros [= <-].
  - by intros [= <-].
  - destruct (Ascii.eqb a b); [apply IH|done].
Qed.

Lemma strip_prefix_padded_none p s :
  forallb (fun c => negb (is_ws c)) p = true ->
  strip_prefix p s = None -> strip_prefix p (s ++ t) = None.
Proof using Ht.
  revert s. induction p as [|a p IH]; intros s Hp; [by destruct s|].
  cbn in Hp. apply andb_true_iff in Hp as [Ha Hp].
  destruct s as [|b s]; cbn.
  - intros _. destruct t as [|x t']; [done|]. cbn in *.
    apply andb_true_iff in Ht as [Hx _].
    destruct (Ascii.eqb_spec a x) as [->|]; [|done].
    rewrite Hx in Ha. done.
  - destruct (Ascii.eqb a b); [by apply IH|done].
Qed.

Lemma is_digit_not_ws c : is_ws c = true -> is_digit c = false.
Proof. destruct c as [[] [] [] [] [] [] [] []]; by vm_compute. Qed.

Lemma take_digits_padded s :
  take_digits (s ++ t) = ((take_digits s).1, (take_digits s).2 ++ t).
Proof using Ht.
  induction s as [|c s IH]; cbn.
  - destruct t as [|x t']; [done|]. cbn in *.
    apply andb_true_iff in Ht as [Hx _]. by rewrite (is_digit_not_ws _ Hx).
  - destruct (is_digit c); [|done]. rewrite IH. by destruct (take_digits s).
Qed.

Lemma ws_not_zero c : is_ws c = true -> Ascii.eqb c "0" = false.
Proof. destruct c as [[] [] [] [] [] [] [] []]; by vm_compute. Qed.

Lemma ws_not_exponent c :
  is_ws c = true -> Ascii.eqb c "e" || Ascii.eqb c "E" = false.
Proof. destruct c as [[] [] [] [] [] [] [] []]; by vm_compute. Qed.

Lemma ws_not_sign c :
  is_ws c = true -> Ascii.eqb c "-" || Ascii.eqb c "+" = false.
Proof. destruct c as [[] [] [] [] [] [] [] []]; by vm_compute. Qed.

Lemma match_integer_padded s :
  match_integer (s ++ t)
  = match match_integer s with
    | Some (lexeme, r) => Some (lexeme, r ++ t)
    | None => None
    end.
Proof using Ht.
  assert (forall sign s1,
            match s1 ++ t with
            | [] => None
            | c :: s2 =>
                if Ascii.eqb c "0" then Some (sign ++ [c], s2)
                else if is_digit c
                     then let '(ds, r) := take_digits s2 in Some (sign ++ c :: ds, r)
                     else None
            end
            = match match s1 with
                    | [] => None
                    | c :: s2 =>
                        if Ascii.eqb c "0" then Some (sign ++ [c], s2)
                        else if is_digit c
                             then let '(ds, r) := take_digits s2 in
                                  Some (sign ++ c :: ds, r)
                             else None
                    end with
              | Some (lexeme, r) => Some (lexeme, r ++ t)
              | None => None
              end) as Hbody.
  { intros sign [|c s2]; cbn.
    - destruct t as [|x t']; [done|]. cbn in *.
      apply andb_true_iff in Ht as [Hx _].
      by rewrite (ws_not_zero _ Hx), (is_digit_not_ws _ Hx).
    - destruct (Ascii.eqb c "0"); [done|]. destruct (is_digit c); [|done].
      rewrite take_digits_padded. by destruct (take_digits s2). }
  unfold match_integer. rewrite next_is_padded by done.
  destruct (next_is "-" s) as [s'|]; cbn [fmap option_fmap option_map]; apply Hbody.
Qed.

Lemma match_frac_padded s :
  match_frac (s ++ t) = ((match_frac s).1, (match_frac s).2 ++ t).
Proof using Ht.
  unfold match_frac. rewrite next_is_padded by done.
  destruct (next_is "." s) as [s'|]; cbn [fmap option_fmap option_map]; [|done].
  rewrite take_digits_padded.
  by destruct (take_digits s') as [[|d ds] r].
Qed.

Lemma match_exp_padded s :
  match_exp (s ++ t) = ((match_exp s).1, (match_exp s).2 ++ t).
Proof using Ht.
  unfold match_exp. destruct s as [|e s']; cbn [app].
  - destruct t as [|x t'] eqn:Ht0; [done|]. cbn in Ht.
    apply andb_true_iff in Ht as [Hx _]. by rewrite (ws_not_exponent _ Hx).
  - destruct (Ascii.eqb e "e" || Ascii.eqb e "E"); [|done].
    destruct s' as [|c s3]; cbn [app].
    + destruct t as [|x t'] eqn:Ht0; [done|]. cbn in Ht.
      apply andb_true_iff in Ht as [Hx Ht']. rewrite (ws_not_sign _ Hx).
      cbn [take_digits]. by rewrite (is_digit_not_ws _ Hx).
    + destruct (Ascii.eqb c "-" || Ascii.eqb c "+").
      * rewrite take_digits_padded. by destruct (take_digits s3) as [[|d ds] r].
      * change (c :: s3 ++ t) with ((c :: s3) ++ t).
        rewrite (take_digits_padded (c :: s3)).
        by destruct (take_digits (c :: s3)) as [[|d ds] r].
Qed.

Lemma scan_number_padded s i j :
  scan_number (s ++ t) j
  = match scan_number s i with
    | Some (v, r, i') => Some (v, r ++ t, j + (i' - i))
    | None => None
    end.
Proof using Ht.
  unfold scan_number. rewrite match_integer_padded.
  destruct (match_integer s) as [[integer s1]|]; [|done].
  rewrite match_frac_padded. destruct (match_frac s1) as [frac s2]. cbn [fst snd].
  rewrite match_exp_padded. destruct (match_exp s2) as [exp s3]. cbn [fst snd].
  f_equal. f_equal. lia.
Qed.

Lemma scan_word_padded w v s i j :
  forallb (fun c => negb (is_ws c)) (lit w) = true ->
  scan_word w v (s ++ t) j
  = match scan_word w v s i with
    | Some (v', r, i') => Some (v', r ++ t, j + (i' - i))
    | None => None
    end.
Proof using Ht.
  intros Hw. unfold scan_word.
  destruct (strip_prefix (lit w) s) as [r|] eqn:Hs.
  - rewrite (strip_prefix_padded _ _ _ Hs). f_equal. f_equal. lia.
  - by rewrite (strip_prefix_padded_none _ _ Hw Hs).
Qed.

Lemma scan_atom_padded s i j v r i' :
  scan_atom s i = inr (v, r, i') ->
  exists j', scan_atom (s ++ t) j = inr (v, r ++ t, j').
Proof using Ht.
  unfold scan_atom.
  rewrite !(scan_word_padded _ _ s i j) by reflexivity.
  rewrite (scan_number_padded s i j).
  repeat lazymatch goal with
  | |- match scan_word ?w ?x s i with Some _ => _ | None => _ end = _ -> _ =>
      destruct (scan_word w x s i) as [[[? ?] ?]|]; [intros [= <- <- <-]; eauto|]
  | |- match scan_number s i with Some _ => _ | None => _ end = _ -> _ =>
      destruct (scan_number s i) as [[[? ?] ?]|]; [intros [= <- <- <-]; eauto|]
  end.
  done.
Qed.

Lemma decode_uXXXX_padded s u r :
  decode_uXXXX s = Some (u, r) -> decode_uXXXX (s ++ t) = Some (u, r ++ t).
Proof.
  destruct s as [|a [|b [|c [|d [|x s']]]]]; cbn; try done.
  destruct (hex_value a), (hex_value b), (hex_value c), (hex_value d); try done.
  by intros [= <- <-].
Qed.

Lemma join_surrogates_padded uni s i j uni' r i' :
  join_surrogates uni s i = inr (uni', r, i') ->
  exists j', join_surrogates uni (s ++ t) j = inr (uni', r ++ t, j').
Proof using Ht.
  unfold join_surrogates. destruct (is_high_surrogate uni); [|intros [= <- <- <-]; eauto].
  destruct (strip_prefix (lit "\u") s) as [s'|] eqn:Hs.
  - rewrite (strip_prefix_padded _ _ _ Hs).
    destruct (decode_uXXXX s') as [[uni2 s2]|] eqn:Hd; [|done].
    rewrite (decode_uXXXX_padded _ _ _ Hd).
    destruct (is_low_surrogate uni2); intros [= <- <- <-]; eauto.
  - rewrite (strip_prefix_padded_none (lit "\u") s eq_refl Hs).
    intros [= <- <- <-]. eauto.
Qed.

Lemma scanstring_padded f f' begin begin' s i j cs r i' :
  f <= f' ->
  scanstring_loop f begin s i = inr (cs, r, i') ->
  exists j', scanstring_loop f' begin' (s ++ t) j = inr (cs, r ++ t, j').
Proof using Ht.
  revert f' s i j cs r i'.
  induction f as [|f IH]; intros [|f'] [|c s'] i j cs r i' Hle; try done; try lia.
  cbn [scanstring_loop app].
  destruct (Ascii.eqb c "034"); [intros [= <- <- <-]; eauto|].
  destruct (Ascii.eqb c "092").
  - destruct s' as [|esc s2]; [done|]. cbn [app].
    destruct (Ascii.eqb esc "u").
    + destruct (decode_uXXXX s2) as [[uni s3]|] eqn:Hd; [|done].
      rewrite (decode_uXXXX_padded _ _ _ Hd).
      destruct (join_surrogates uni s3 (i + 6)) as [e|[[uni' s4] i4]] eqn:Hj; [done|].
      destruct (join_surrogates_padded _ _ _ (j + 6) _ _ _ Hj) as [j4 ->].
      destruct (scanstring_loop f begin s4 i4) as [e|[[cs' s5] i5]] eqn:Hrest; [done|].
      intros [= <- <- <-].
      destruct (IH f' s4 i4 j4 _ _ _ ltac:(lia) Hrest) as [j5 ->]. eauto.
    + destruct (backslash esc); [|done].
      destruct (scanstring_loop f begin s2 (i + 2)) as [e|[[cs' s5] i5]] eqn:Hrest;
        [done|].
      intros [= <- <- <-].
      destruct (IH f' s2 (i + 2) (j + 2) _ _ _ ltac:(lia) Hrest) as [j5 ->]. eauto.
  - destruct (nat_of_ascii c <? 32)%nat; [done|].
    destruct (scanstring_loop f begin s' (S i)) as [e|[[cs' s5] i5]] eqn:Hrest; [done|].
    intros [= <- <- <-].
    destruct (IH f' s' (S i) (S j) _ _ _ ltac:(lia) Hrest) as [j5 ->]. eauto.
Qed.

Lemma scanstring_start_padded s i j cs r i' :
  scanstring s i = inr (cs, r, i') ->
  exists j', scanstring (s ++ t) j = inr (cs, r ++ t, j').
Proof using Ht.
  unfold scanstring. apply scanstring_padded. rewrite length_app. lia.
Qed.

(** A scan that succeeds still does, with the same value, when the text
    goes on with whitespace, wherever the text sits and with any larger
    amount of fuel. *)
Lemma scan_padded f f' :
  f <= f' ->
  (forall s i j v r i',
      scan_once f s i = inr (v, r, i') ->
      exists j', scan_once f' (s ++ t) j = inr (v, r ++ t, j'))
  /\ (forall s i j ps r i',
         object_loop f s i = inr (ps, r, i') ->
         exists j', object_loop f' (s ++ t) j = inr (ps, r ++ t, j'))
  /\ (forall s i j vs r i',
         array_loop f s i = inr (vs, r, i') ->
         exists j', array_loop f' (s ++ t) j = inr (vs, r ++ t, j')).
Proof using Ht.
  revert f'. induction f as [|f IH]; intros [|f'] Hle; try lia;
    [repeat split; done..|].
  destruct (IH f' ltac:(lia)) as (IHval & IHobj & IHarr).
  split; [|split]; intros s i j.
  - intros v r i'. destruct s as [|c s']; [done|].
    cbn [scan_once app].
    destruct (Ascii.eqb c "034").
    { destruct (scanstring s' (S i)) as [e|[[cs s1] i1]] eqn:Hstr; [done|].
      intros [= <- <- <-].
      destruct (scanstring_start_padded _ _ (S j) _ _ _ Hstr) as [j1 ->]. eauto. }
    destruct (Ascii.eqb c "{").
    { destruct (skip_ws s' (S i)) as [s1 i1] eqn:Hws.
      destruct (decide (s1 = [])) as [->|Hne]; [done|].
      destruct (skip_ws_padded _ _ _ _ (S j) Hws Hne) as [j1 ->].
      rewrite !next_is_padded by done.
      destruct (next_is "}" s1) as [s2|]; cbn [fmap option_fmap option_map].
      { intros [= <- <- <-]. eauto. }
      destruct (next_is "034" s1) as [s2|]; cbn [fmap option_fmap option_map];
        [|done].
      destruct (object_loop f s2 (S i1)) as [e|[[ps s3] i3]] eqn:Hobj; [done|].
      intros [= <- <- <-].
      destruct (IHobj _ _ (S j1) _ _ _ Hobj) as [j3 ->]. eauto. }
    destruct (Ascii.eqb c "[") eqn:Hbracket.
    { destruct (skip_ws s' (S i)) as [s1 i1] eqn:Hws.
      destruct (decide (s1 = [])) as [->|Hne].
      { cbn [next_is]. by destruct f as [|[|f0]]. }
      destruct (skip_ws_padded _ _ _ _ (S j) Hws Hne) as [j1 ->].
      rewrite !next_is_padded by done.
      destruct (next_is "]" s1) as [s2|]; cbn [fmap option_fmap option_map].
      { intros [= <- <- <-]. eauto. }
      destruct (array_loop f s1 i1) as [e|[[vs s3] i3]] eqn:Harr; [done|].
      intros [= <- <- <-].
      destruct (IHarr _ _ j1 _ _ _ Harr) as [j3 ->]. eauto. }
    change (c :: s' ++ t) with ((c :: s') ++ t). apply scan_atom_padded.
  - intros ps r i'. cbn [object_loop].
    destruct (scanstring s i) as [e|[[key s1] i1]] eqn:Hstr; [done|].
    destruct (scanstring_start_padded _ _ j _ _ _ Hstr) as [j1 ->].
    destruct (skip_ws s1 i1) as [s2 i2] eqn:Hws.
    destruct (decide (s2 = [])) as [->|Hne]; [done|].
    destruct (skip_ws_padded _ _ _ _ j1 Hws Hne) as [j2 ->].
    rewrite !next_is_padded by done.
    destruct (next_is ":" s2) as [s3|]; cbn [fmap option_fmap option_map]; [|done].
    destruct (skip_ws s3 (S i2)) as [s4 i4] eqn:Hws4.
    destruct (decide (s4 = [])) as [->|Hne4].
    { by destruct f. }
    destruct (skip_ws_padded _ _ _ _ (S j2) Hws4 Hne4) as [j4 ->].
    destruct (scan_once f s4 i4) as [e|[[value s5] i5]] eqn:Hval; [done|].
    destruct (IHval _ _ j4 _ _ _ Hval) as [j5 ->].
    cbn zeta.
    destruct (skip_ws s5 i5) as [s6 i6] eqn:Hws6.
    destruct (decide (s6 = [])) as [->|Hne6]; [done|].
    destruct (skip_ws_padded _ _ _ _ j5 Hws6 Hne6) as [j6 ->].
    rewrite !next_is_padded by done.
    destruct (next_is "}" s6) as [s7|]; cbn [fmap option_fmap option_map].
    { intros [= <- <- <-]. eauto. }
    destruct (next_is "," s6) as [s7|]; cbn [fmap option_fmap option_map]; [|done].
    destruct (skip_ws s7 (S i6)) as [s8 i8] eqn:Hws8.
    destruct (decide (s8 = [])) as [->|Hne8]; [done|].
    destruct (skip_ws_padded _ _ _ _ (S j6) Hws8 Hne8) as [j8 ->].
    rewrite !next_is_padded by done.
    destruct (next_is "034" s8) as [s9|]; cbn [fmap option_fmap option_map];
      [|done].
    destruct (object_loop f s9 (S i8)) as [e|[[ps' sa] ia]] eqn:Hobj; [done|].
    intros [= <- <- <-].
    destruct (IHobj _ _ (S j8) _ _ _ Hobj) as [ja ->]. eauto.
  - intros vs r i'. cbn [array_loop].
    destruct (scan_once f s i) as [e|[[value s1] i1]] eqn:Hval; [done|].
    destruct (IHval _ _ j _ _ _ Hval) as [j1 ->].
    destruct (skip_ws s1 i1) as [s2 i2] eqn:Hws.
    destruct (decide (s2 = [])) as [->|Hne]; [done|].
    destruct (skip_ws_padded _ _ _ _ j1 Hws Hne) as [j2 ->].
    rewrite !next_is_padded by done.
    destruct (next_is "]" s2) as [s3|]; cbn [fmap option_fmap option_map].
    { intros [= <- <- <-]. eauto. }
    destruct (next_is "," s2) as [s3|]; cbn [fmap option_fmap option_map]; [|done].
    destruct (skip_ws s3 (S i2)) as [s4 i4] eqn:Hws4.
    destruct (decide (s4 = [])) as [->|Hne4].
    { by destruct f as [|[|f0]]. }
    destruct (skip_ws_padded _ _ _ _ (S j2) Hws4 Hne4) as [j4 ->].
    destruct (array_loop f s4 i4) as [e|[[vs' s5] i5]] eqn:Harr; [done|].
    intros [= <- <- <-].
    destruct (IHarr _ _ j4 _ _ _ Harr) as [j5 ->]. eauto.
Qed.

End Padded.

Lemma skip_ws_leading p s i :
  forallb is_ws p = true -> skip_ws (p ++ s) i = skip_ws s (i + length p).
Proof.
  revert i. induction p as [|c p IH]; intros i Hp; cbn.
  - f_equal. lia.
  - cbn in Hp. apply andb_true_iff in Hp as [-> Hp]. rewrite IH by done.
    f_equal. lia.
Qed.

Lemma ws_not_bom c : is_ws c = true -> Ascii.eqb "239" c = false.
Proof. destruct c as [[] [] [] [] [] [] [] []]; by vm_compute. Qed.

Lemma strip_bom_padded p s t :
  forallb is_ws p = true -> forallb is_ws t = true ->
  strip_prefix bom s = None -> strip_prefix bom (p ++ s ++ t) = None.
Proof.
  intros Hp Ht Hs. destruct p as [|c p]; cbn [app].
  - by apply strip_prefix_padded_none.
  - cbn in Hp. apply andb_true_iff in Hp as [Hc _].
    unfold bom. cbn [strip_prefix]. by rewrite (ws_not_bom _ Hc).
Qed.

(** [JSONDecoder.decode] gives the same value when the text is put
    between two runs of whitespace. *)
Lemma decode_padded p s t v :
  forallb is_ws p = true -> forallb is_ws t = true ->
  decode s = inr v -> decode (p ++ s ++ t) = inr v.
Proof.
  intros Hp Ht. unfold decode.
  rewrite skip_ws_leading by done.
  destruct (skip_ws s 0) as [s0 i0] eqn:Hws.
  destruct (scan_once (2 * length s + 1) s0 i0) as [e|[[obj s1] i1]] eqn:Hval;
    [done|].
  destruct (decide (s0 = [])) as [->|Hne].
  { by rewrite Nat.add_1_r in Hval. }
  destruct (skip_ws_padded t _ _ _ _ (0 + length p) Hws Hne) as [j0 ->].
  assert (2 * length s + 1 <= 2 * length (p ++ s ++ t) + 1) as Hle.
  { rewrite !length_app. lia. }
  destruct (scan_padded t Ht _ _ Hle) as (Hscan & _).
  destruct (Hscan _ _ j0 _ _ _ Hval) as [j1 ->].
  destruct (skip_ws s1 i1) as [s2 i2] eqn:Hws1.
  destruct s2 as [|c s2]; [|done]. intros [= <-].
  pose proof (skip_ws_all_padding t Ht s1 i1 j1) as Hend.
  rewrite Hws1 in Hend. specialize (Hend eq_refl).
  destruct (skip_ws (s1 ++ t) j1) as [s3 i3]. cbn in Hend. by subst s3.
Qed.

Lemma list_ascii_of_string_app a b :
  list_ascii_of_string (a +:+ b) = list_ascii_of_string a ++ list_ascii_of_string b.
Proof.
  induction a as [|c a IH]; [done|].
  change (String c a +:+ b) with (String c (a +:+ b)).
  cbn [list_ascii_of_string app]. by rewrite IH.
Qed.

(** So does [json.loads]. *)
Lemma json_loads_padded before text after v :
  is_padding before = true -> is_padding after = true ->
  json_loads (Some text) = ok v ->
  json_loads (Some (before +:+ text +:+ after)) = ok v.
Proof.
  unfold is_padding, json_loads. intros Hp Ht.
  rewrite !list_ascii_of_string_app.
  case_bool_decide as Hbom; [done|].
  destruct (decode (list_ascii_of_string text)) as [e|v'] eqn:Hdec; [done|].
  intros [= <-].
  rewrite bool_decide_eq_false_2.
  - by rewrite (decode_padded _ _ _ _ Hp Ht Hdec).
  - rewrite strip_bom_padded; [by intros [? [=]]|done..|].
    destruct (strip_prefix bom (list_ascii_of_string text)); [|done].
    by destruct Hbom.
Qed.

End JsonPadding.

Section Padding.

Context {ext : Externals}.

(** X15.  Whitespace (spaces, tabs, line feeds, carriage returns) before
    and after a reply changes nothing: what a reply within the
    interpreter's limits denotes is still handed over as [metadata] when
    the completion pads it, and reaches the client with status 200 when
    the framework can encode it. *)
Theorem identify_comic_padded_reply
    (render : json -> result unit) url
    image user_id w pil w1 png w2 resp before reply after metadata :
  load_image_as_pillow image w = (inr pil, w1) ->
  save pil "PNG" None w1 = (inr png, w2) ->
  hosted_model (calls w2) (vision_request (b64encode png)) = inr resp ->
  first_content resp = ok (Some (before +:+ reply +:+ after)) ->
  is_padding before = true ->
  is_padding after = true ->
  json_loads (Some reply) = ok metadata ->
  within_limits reply = true ->
  let handed := JDict [("user_id", JStr user_id); ("metadata", metadata)] in
  guarded render (identify_comic image user_id) url w
  = (match render handed with
     | inr _ => {| status_code := 200; body := handed |}
     | inl exc => global_exception_handler url exc
     end,
     called w2 (vision_request (b64encode png))).
Proof.
  intros Hload Hsave Hcall Hfirst Hbefore Hafter Hparse _ handed.
  unfold guarded.
  rewrite identify_comic_eq, Hload, analyze_comic_cover_eq, Hsave.
  cbn zeta. rewrite Hcall, Hfirst. unfold ok at 1. cbv beta iota.
  rewrite (JsonPadding.json_loads_padded _ _ _ _ Hbefore Hafter Hparse).
  unfold ok. cbv beta iota. cbn [body]. fold handed.
  by destruct (render handed).
Qed.

End Padding.

Module PaddingRuns.

Import Toy.

(** X15 on a JSON array between a line feed with two spaces and a
    trailing space. *)
Lemma identify_comic_padded_reply_run :
  guarded (ext := externals (says (String "010" "  [1, 2] "))) render
    (identify_comic (ext := externals (says (String "010" "  [1, 2] ")))
       upload "reader-7")
    "http://localhost:8000/api/comics/identify" shelf
  = ({| status_code := 200;
        body := JDict [("user_id", JStr "reader-7");
                       ("metadata", JList [JInt 1; JInt 2])] |},
     {| heap := [cover; {| mode := "RGB"; size := (2000, 1000)%Z;
                          format := Some "PNG"; im := true |}];
        calls := [vision_request ""] |}).
Proof.
  apply (identify_comic_padded_reply
           (ext := externals (says (String "010" "  [1, 2] ")))
           render "http://localhost:8000/api/comics/identify"
           upload "reader-7" shelf 1
           (grown (ext := externals (says (String "010" "  [1, 2] "))) shelf
              [{| mode := "RGB"; size := (2000, 1000)%Z;
                  format := Some "PNG"; im := true |}])
           []
           (grown (ext := externals (says (String "010" "  [1, 2] "))) shelf
              [{| mode := "RGB"; size := (2000, 1000)%Z;
                  format := Some "PNG"; im := true |}])
           {| choices :=
                [ {| message_content := Some (String "010" "  [1, 2] ") |} ] |}
           (String "010" "  ") "[1, 2]" " " (JList [JInt 1; JInt 2]));
    vm_compute; reflexivity.
Defined.

End PaddingRuns.
